(** * A shallow embedding of the MBS simulator [mbs_sim.py]

    Numbers.  The program computes with Python floats.  The main embedding
    computes amounts with exact rationals [Q]: every arithmetic operation
    of the source is the corresponding exact operation, and comparisons
    are the exact comparisons, so the rounding of amounts is not
    modelled.  What a float operation does beyond rounding is modelled:
    a power that overflows raises, a power that underflows is zero, an
    int too large for a float raises.  Equality of amounts is [Qeq]
    ([==]).

    Where rounding itself decides a property, the loan is embedded a
    second time over IEEE binary64 numbers ([Module Binary64]), on which
    every operation rounds as the program's does.

    Exceptions.  A Python exception is a value [Raise e] of [result].

    Randomness.  The process-wide generator is an explicit stream of
    draws threaded through every stochastic operation.

    Objects.  A list of tranches or loans holds pairwise distinct objects
    (the per-path working copies of [price_single_path]), so in-place
    mutation of an element is a functional update of the list. *)

From Stdlib Require Import QArith Qminmax Qabs Qpower ZArith List Bool String Lia Lra Psatz.
From Stdlib Require Import Floats.
Import ListNotations.
Local Open Scope Q_scope.

(** ** Python's exceptions and float primitives *)

Inductive exn : Type :=
| ZeroDivisionError
| TypeError
| KeyError
| OverflowError.

Inductive result (A : Type) : Type :=
| Ok (a : A)
| Raise (e : exn).

Arguments Ok {A} a.
Arguments Raise {A} e.

Definition bind {A B : Type} (c : result A) (k : A -> result B) : result B :=
  match c with
  | Ok a => k a
  | Raise e => Raise e
  end.

Notation "x <- c ;; k" := (bind c (fun x => k))
  (at level 61, c at next level, right associativity).
Notation "' p <- c ;; k" := (bind c (fun x => match x with p => k end))
  (at level 61, p pattern, c at next level, right associativity).

Definition Qlt_bool (x y : Q) : bool := negb (Qle_bool y x).

(** [a / b] on floats. *)
Definition float_div (a b : Q) : result Q :=
  if Qeq_bool b 0 then Raise ZeroDivisionError else Ok (a / b).

(** The magnitude from which a number rounds to an infinite float,
    2^1024 - 2^970, and the magnitude up to which it rounds to zero,
    2^-1075. *)
Definition overflow_threshold : Q := inject_Z (2 ^ 1024 - 2 ^ 970).

Definition underflow_threshold : Q := 1 # (2 ^ 1075).

(** The conversion of an int operand to a float. *)
Definition int_to_float (z : Z) : result Q :=
  if Qle_bool overflow_threshold (Qabs (inject_Z z)) then Raise OverflowError
  else Ok (inject_Z z).

(** [b ** e] for a float [b] and an int [e]: the exponent is converted,
    zero to a negative power raises, a result out of range raises, and a
    result too small for a float is zero. *)
Definition float_pow_int (b : Q) (e : Z) : result Q :=
  _ <- int_to_float e ;;
  if Qeq_bool b 0 && (e <? 0)%Z then Raise ZeroDivisionError
  else
    let v := Qpower b e in
    if Qle_bool overflow_threshold (Qabs v) then Raise OverflowError
    else if Qle_bool (Qabs v) underflow_threshold then Ok 0
    else Ok v.

(** A number that Python may have turned into a [complex]: the value of
    [x ** (1 / 12)] is a complex number when [x] is negative. *)
Inductive number : Type :=
| Real (q : Q)
| Complex.

(** [x ** (1 / 12)]; [root12] is the float primitive on non-negative
    bases. *)
Definition pow_twelfth (root12 : Q -> Q) (x : Q) : number :=
  if Qlt_bool x 0 then Complex else Real (root12 x).

(** [1 - z]. *)
Definition one_minus (z : number) : number :=
  match z with
  | Real q => Real (1 - q)
  | Complex => Complex
  end.

(** The tolerance [1e-9] of every near-zero comparison. *)
Definition eps : Q := 1 # 1000000000.

(** ** The random source *)

Definition rng : Type := nat -> Q.

(** [random.random()]: the next draw and the advanced generator. *)
Definition random (g : rng) : Q * rng := (g O, fun n => g (S n)).

(** ** Collateral *)

Record cashflow : Type := mkCashflow {
  cf_interest : Q;
  cf_principal : Q;
  cf_loss : Q
}.

Module Mortgage.

Record t : Type := mk {
  balance : Q;
  rate : Q;
  term : Z;
  remaining : Z;
  payment : Q;
  alive : bool
}.

Definition create (principal rate : Q) (term_months : Z) : result t :=
  let monthly_rate := rate / 12 in
  let numerator := principal * monthly_rate in
  p <- float_pow_int (1 + monthly_rate) (- term_months) ;;
  payment <- float_div numerator (1 - p) ;;
  Ok (mk principal rate term_months term_months payment true).

Section Step.

Variable root12 : Q -> Q.

Definition step (self : t) (cpr cdr recovery : Q) (g : rng)
  : result (cashflow * t * rng) :=
  if negb (alive self) || Qle_bool (balance self) eps then
    Ok (mkCashflow 0 0 0, self, g)
  else
    let monthly_default := one_minus (pow_twelfth root12 (1 - cdr)) in
    let monthly_prepay := one_minus (pow_twelfth root12 (1 - cpr)) in
    let interest := balance self * (rate self / 12) in
    let scheduled_principal := Qmin (payment self - interest) (balance self) in
    let (u, g') := random g in
    match monthly_default with
    | Complex => Raise TypeError
    | Real md =>
        if Qlt_bool u md then
          let cash_recovered := balance self * recovery in
          let credit_loss := balance self - cash_recovered in
          Ok (mkCashflow 0 cash_recovered credit_loss,
              mk 0 (rate self) (term self) (remaining self) (payment self) false,
              g')
        else
          match monthly_prepay with
          | Complex => Raise TypeError
          | Real mp =>
              let prepay_amount := (balance self - scheduled_principal) * mp in
              let total_principal :=
                Qmin (balance self) (scheduled_principal + prepay_amount) in
              let balance' := balance self - total_principal in
              let remaining' := (remaining self - 1)%Z in
              let alive' :=
                if (remaining' <=? 0)%Z || Qle_bool balance' eps then false
                else alive self in
              Ok (mkCashflow interest total_principal 0,
                  mk balance' (rate self) (term self) remaining' (payment self) alive',
                  g')
          end
    end.

End Step.

End Mortgage.

(** ** Tranches and the waterfall *)

Module Tranche.

Record t : Type := mk {
  name : string;
  balance : Q;
  coupon : Q
}.

Definition copy (self : t) : t := mk (name self) (balance self) (coupon self).

(** [self.balance = b], as a functional update. *)
Definition set_balance (self : t) (b : Q) : t := mk (name self) b (coupon self).

End Tranche.

(** The loop of [allocate_losses], over the tranches in the order the loop
    visits them (least senior first); the tranches after a [break] are
    left as they are. *)
Fixpoint allocate_losses_loop (loss : Q) (visit : list Tranche.t) : list Tranche.t :=
  match visit with
  | [] => []
  | tr :: rest =>
      let hit := Qmin (Tranche.balance tr) loss in
      let tr' := Tranche.set_balance tr (Tranche.balance tr - hit) in
      let loss' := loss - hit in
      if Qle_bool loss' eps then tr' :: rest
      else tr' :: allocate_losses_loop loss' rest
  end.

(** [allocate_losses(loss, tranches)]: the tranche list after the call
    (index 0 is the most senior). *)
Definition allocate_losses (loss : Q) (tranches : list Tranche.t) : list Tranche.t :=
  rev (allocate_losses_loop loss (rev tranches)).

(** The interest loop of [price_single_path]: the list [interest_paid] and
    the [interest_available] left after the loop. *)
Fixpoint pay_interest (interest_available : Q) (tranches : list Tranche.t)
  : list Q * Q :=
  match tranches with
  | [] => ([], interest_available)
  | tr :: rest =>
      let due := Tranche.balance tr * Tranche.coupon tr / 12 in
      let paid := Qmin due interest_available in
      let (more, leftover) := pay_interest (interest_available - paid) rest in
      (paid :: more, leftover)
  end.

(** The principal loop of [price_single_path]: the tranches after the loop,
    the list [principal_paid] and the [principal_available] left. *)
Fixpoint pay_principal (principal_available : Q) (tranches : list Tranche.t)
  : list Tranche.t * list Q * Q :=
  match tranches with
  | [] => ([], [], principal_available)
  | tr :: rest =>
      let pay := Qmin (Tranche.balance tr) principal_available in
      let tr' := Tranche.set_balance tr (Tranche.balance tr - pay) in
      let '(rest', more, leftover) := pay_principal (principal_available - pay) rest in
      (tr' :: rest', pay :: more, leftover)
  end.

(** What one month of the waterfall computes from the pool's totals. *)
Record waterfall : Type := mkWaterfall {
  after_losses : list Tranche.t;
  interest_paid : list Q;
  interest_left : Q;
  principal_available : Q;
  after_principal : list Tranche.t;
  principal_paid : list Q;
  principal_left : Q
}.

Definition run_waterfall (cash_int cash_prin losses : Q) (tranches : list Tranche.t)
  : waterfall :=
  let tranches1 := allocate_losses losses tranches in
  let (ipaid, ileft) := pay_interest cash_int tranches1 in
  let pavail := cash_prin + ileft in
  let '(tranches2, ppaid, pleft) := pay_principal pavail tranches1 in
  mkWaterfall tranches1 ipaid ileft pavail tranches2 ppaid pleft.

(** ** The present-value dictionary *)

Definition dict : Type := list (string * Q).

Fixpoint dict_get (d : dict) (k : string) : option Q :=
  match d with
  | [] => None
  | (k', v) :: d' => if String.eqb k k' then Some v else dict_get d' k
  end.

(** [d[k] = v]: an existing key keeps its position. *)
Fixpoint dict_set (d : dict) (k : string) (v : Q) : dict :=
  match d with
  | [] => [(k, v)]
  | (k', v') :: d' =>
      if String.eqb k k' then (k', v) :: d' else (k', v') :: dict_set d' k v
  end.

(** [{t.name: 0.0 for t in tranches}] *)
Definition zero_pv (tranches : list Tranche.t) : dict :=
  fold_left (fun d tr => dict_set d (Tranche.name tr) 0) tranches [].

(** The discounting loop over [zip(tranches, interest_paid, principal_paid)]. *)
Fixpoint discount (discount_factor : Q) (tranches : list Tranche.t)
  (ipaid ppaid : list Q) (pv : dict) : result dict :=
  match tranches, ipaid, ppaid with
  | tr :: tranches', ip :: ipaid', pp :: ppaid' =>
      match dict_get pv (Tranche.name tr) with
      | None => Raise KeyError
      | Some old =>
          x <- float_div (ip + pp) discount_factor ;;
          discount discount_factor tranches' ipaid' ppaid'
            (dict_set pv (Tranche.name tr) (old + x))
      end
  | _, _, _ => Ok pv
  end.

(** ** One path *)

Record path_state : Type := mkPath {
  tranches : list Tranche.t;
  mortgages : list Mortgage.t;
  pv : dict;
  gen : rng
}.

Section Path.

Variable root12 : Q -> Q.
Variables cpr cdr recovery : Q.

(** The loop [for mt in mortgages] of one month, with its three
    accumulators. *)
Fixpoint step_pool (ms : list Mortgage.t) (cash_int cash_prin losses : Q) (g : rng)
  : result (list Mortgage.t * (Q * Q * Q) * rng) :=
  match ms with
  | [] => Ok ([], (cash_int, cash_prin, losses), g)
  | mt :: rest =>
      '(cf, mt', g') <- Mortgage.step root12 mt cpr cdr recovery g ;;
      '(rest', totals, g'') <-
        step_pool rest (cash_int + cf_interest cf) (cash_prin + cf_principal cf)
          (losses + cf_loss cf) g' ;;
      Ok (mt' :: rest', totals, g'')
  end.

Variable monthly_disc : Q.

(** The body of the loop over months, after the early-exit test. *)
Definition month_body (month : Z) (st : path_state) : result path_state :=
  '(ms', (cash_int, cash_prin, losses), g') <- step_pool (mortgages st) 0 0 0 (gen st) ;;
  let w := run_waterfall cash_int cash_prin losses (tranches st) in
  discount_factor <- float_pow_int (1 + monthly_disc) month ;;
  pv' <- discount discount_factor (after_principal w) (interest_paid w)
           (principal_paid w) (pv st) ;;
  Ok (mkPath (after_principal w) ms' pv' g').

(** [todo] iterations of [for month in range(...)], starting at [month]. *)
Fixpoint months_loop (todo : nat) (month : Z) (st : path_state) : result path_state :=
  match todo with
  | O => Ok st
  | S todo' =>
      if negb (existsb Mortgage.alive (mortgages st)) then Ok st
      else st' <- month_body month st ;; months_loop todo' (month + 1)%Z st'
  end.

End Path.

(** The state before the first month: working copies of the tranches, the
    pool the factory returned, and a zero present value per tranche. *)
Definition path_start (tranche_defs : list Tranche.t) (mortgages0 : list Mortgage.t)
  (g0 : rng) : path_state :=
  let tranches0 := map Tranche.copy tranche_defs in
  mkPath tranches0 mortgages0 (zero_pv tranches0) g0.

Definition price_single_path (root12 : Q -> Q)
  (pool_factory : rng -> result (list Mortgage.t * rng))
  (tranche_defs : list Tranche.t) (months : Z) (cpr cdr recovery disc_rate : Q)
  (g : rng) : result (dict * rng) :=
  '(mortgages0, g0) <- pool_factory g ;;
  let monthly_disc := disc_rate / 12 in
  st <- months_loop root12 cpr cdr recovery monthly_disc (Z.to_nat months) 1
          (path_start tranche_defs mortgages0 g0) ;;
  Ok (pv st, gen st).

(** ** Vocabulary of the properties *)

(** Stepping one loan once per month for [n] months, with the cashflows
    returned month by month. *)
Fixpoint step_months (root12 : Q -> Q) (n : nat) (m : Mortgage.t)
  (cpr cdr recovery : Q) (g : rng) : result (list cashflow * Mortgage.t * rng) :=
  match n with
  | O => Ok ([], m, g)
  | S n' =>
      '(cf, m', g') <- Mortgage.step root12 m cpr cdr recovery g ;;
      '(cfs, m'', g'') <- step_months root12 n' m' cpr cdr recovery g' ;;
      Ok (cf :: cfs, m'', g'')
  end.

Definition Qsum (l : list Q) : Q := fold_right Qplus 0 l.

Definition total_balance (l : list Tranche.t) : Q := Qsum (map Tranche.balance l).

(** The value of the variable [loss] when the loop of [allocate_losses]
    ends: the part of the loss that no tranche absorbed. *)
Fixpoint loss_left (loss : Q) (visit : list Tranche.t) : Q :=
  match visit with
  | [] => loss
  | tr :: rest =>
      let hit := Qmin (Tranche.balance tr) loss in
      let loss' := loss - hit in
      if Qle_bool loss' eps then loss' else loss_left loss' rest
  end.

Definition retired (t : Tranche.t) : Prop := Tranche.balance t == 0.

Definition nonneg_balance (t : Tranche.t) : Prop := 0 <= Tranche.balance t.

(** The three results of the principal loop. *)
Definition principal_tranches (pool : Q) (ts : list Tranche.t) : list Tranche.t :=
  fst (fst (pay_principal pool ts)).

Definition principal_payments (pool : Q) (ts : list Tranche.t) : list Q :=
  snd (fst (pay_principal pool ts)).

Definition principal_leftover (pool : Q) (ts : list Tranche.t) : Q :=
  snd (pay_principal pool ts).

(** [t'] is the tranche [t] with a balance that is no larger and still
    non-negative. *)
Definition paid_down (t t' : Tranche.t) : Prop :=
  Tranche.name t' = Tranche.name t /\ Tranche.coupon t' = Tranche.coupon t /\
  0 <= Tranche.balance t' /\ Tranche.balance t' <= Tranche.balance t.

Definition no_increase (t t' : Tranche.t) : Prop :=
  Tranche.balance t' <= Tranche.balance t.

(** The monthly growth factor of a balance at annual rate [r]. *)
Definition monthly_factor (r : Q) : Q := 1 + r / 12.

(** Month [k] of the amortization schedule of a loan of [principal] at
    annual rate [r] over [n] months: either the balance has reached the
    tolerance, or the loan is live with [n - k] months to go and the
    balance of the schedule, principal * (x^n - x^k) / (x^n - 1) for
    x = 1 + r / 12 (stated without the division, as is the payment). *)
Definition on_schedule (principal r : Q) (n : Z) (k : nat) (m : Mortgage.t) : Prop :=
  (0 <= Mortgage.balance m /\ Mortgage.balance m <= eps) \/
  (Mortgage.alive m = true /\ (Z.of_nat k < n)%Z /\
   Mortgage.remaining m = (n - Z.of_nat k)%Z /\
   Mortgage.rate m = r /\
   Mortgage.payment m * ((1 + r / 12) ^ n - 1) == principal * (r / 12) * (1 + r / 12) ^ n /\
   Mortgage.balance m * ((1 + r / 12) ^ n - 1)
   == principal * ((1 + r / 12) ^ n - (1 + r / 12) ^ Z.of_nat k)).

(** The default trial of a step fires: the comparison
    [random.random() < monthly_default] is evaluated (the probability is a
    real number) and holds for the next draw. *)
Definition default_fires (root12 : Q -> Q) (cdr : Q) (g : rng) : Prop :=
  match one_minus (pow_twelfth root12 (1 - cdr)) with
  | Real monthly_default => fst (random g) < monthly_default
  | Complex => False
  end.

(** The inert state of a loan: the guard that opens [Mortgage.step]. *)
Definition inert (m : Mortgage.t) : Prop :=
  Mortgage.alive m = false \/ Mortgage.balance m <= eps.

(** A loan as the data model describes it: non-negative balance and rate,
    and a level payment that covers the month's interest. *)
Definition loan_ok (m : Mortgage.t) : Prop :=
  0 <= Mortgage.balance m /\ 0 <= Mortgage.rate m /\
  Mortgage.balance m * (Mortgage.rate m / 12) <= Mortgage.payment m.

(** A tranche as the data model describes it. *)
Definition tranche_ok (t : Tranche.t) : Prop :=
  0 <= Tranche.balance t /\ 0 <= Tranche.coupon t.

(** ** Data of the examples *)

(** The capital structure of [monte_carlo]. *)
Definition tranche_defs : list Tranche.t :=
  [Tranche.mk "Senior" 50000000 (3 # 100);
   Tranche.mk "Mezz" 30000000 (5 # 100);
   Tranche.mk "Equity" 20000000 0].

(** A pool of two loans (annual rate 3, i.e. 0.25 a month) and a generator
    whose every draw is 0.75. *)
Definition small_pool : list Mortgage.t :=
  [Mortgage.mk 1024 3 2 2 712 true; Mortgage.mk 512 3 2 2 356 true].

Definition draws_075 : rng := fun _ => 3 # 4.

(** A loan that has defaulted, and a live one. *)
Definition dead_loan : Mortgage.t := Mortgage.mk 500 6 12 7 50 false.

Definition live_loan : Mortgage.t := Mortgage.mk 1024 3 12 12 512 true.

(** ** The Monte Carlo driver *)

(** The shared generator as [pool_factory] uses it: the stream of uniform
    draws, and the spare deviate [gauss_next] that [random.gauss] keeps
    for its next call ([None] after seeding). *)
Record generator : Type := mkGenerator {
  uniforms : rng;
  gauss_next : option Q
}.

(** [random.uniform(a, b)], that is [a + (b - a) * random()]. *)
Definition uniform (a b : Q) (s : generator) : Q * generator :=
  let (u, g') := random (uniforms s) in
  (a + (b - a) * u, mkGenerator g' (gauss_next s)).

(** [random.gauss(mu, sigma)]: a call with no spare deviate makes two
    uniform draws, turns them into two deviates, returns the first and
    keeps the second; the next call returns that one.  [normal_pair] is
    the transform (cos, sin, log and sqrt of the library). *)
Definition gauss (normal_pair : Q -> Q -> Q * Q) (mu sigma : Q) (s : generator)
  : Q * generator :=
  match gauss_next s with
  | Some z => (mu + z * sigma, mkGenerator (uniforms s) None)
  | None =>
      let (u1, g1) := random (uniforms s) in
      let (u2, g2) := random g1 in
      let (z, spare) := normal_pair u1 u2 in
      (mu + z * sigma, mkGenerator g2 (Some spare))
  end.

(** The loop [for _ in range(400)] of [pool_factory], [todo] iterations of
    it. *)
Fixpoint pool_loop (normal_pair : Q -> Q -> Q * Q) (todo : nat)
  (pool : list Mortgage.t) (s : generator) : result (list Mortgage.t * generator) :=
  match todo with
  | O => Ok (pool, s)
  | S todo' =>
      let (principal, s1) := uniform 180000 320000 s in
      let (z, s2) := gauss normal_pair (45 # 1000) (5 # 1000) s1 in
      let rate := Qmax (1 # 100) z in
      m <- Mortgage.create principal rate 360 ;;
      pool_loop normal_pair todo' (pool ++ [m]) s2
  end.

(** [pool_factory()] of [monte_carlo], called with no spare deviate. *)
Definition pool_factory (normal_pair : Q -> Q -> Q * Q) (g : rng)
  : result (list Mortgage.t * rng) :=
  '(pool, s) <- pool_loop normal_pair 400 [] (mkGenerator g None) ;;
  Ok (pool, uniforms s).

(** [for key in aggregate: aggregate[key] += pv[key]], over the keys
    still to visit. *)
Fixpoint add_pv (todo : list string) (aggregate pv : dict) : result dict :=
  match todo with
  | [] => Ok aggregate
  | key :: todo' =>
      match dict_get aggregate key, dict_get pv key with
      | Some a, Some x => add_pv todo' (dict_set aggregate key (a + x)) pv
      | _, _ => Raise KeyError
      end
  end.

(** [for key in aggregate: aggregate[key] /= runs] *)
Fixpoint average (runs : Z) (todo : list string) (aggregate : dict) : result dict :=
  match todo with
  | [] => Ok aggregate
  | key :: todo' =>
      match dict_get aggregate key with
      | None => Raise KeyError
      | Some a =>
          x <- float_div a (inject_Z runs) ;;
          average runs todo' (dict_set aggregate key x)
      end
  end.

Section Driver.

Variable root12 : Q -> Q.
Variable normal_pair : Q -> Q -> Q * Q.

(** The loop [for _ in range(runs)], [todo] iterations of it. *)
Fixpoint runs_loop (todo : nat) (aggregate : dict) (g : rng) : result (dict * rng) :=
  match todo with
  | O => Ok (aggregate, g)
  | S todo' =>
      '(pv, g') <- price_single_path root12 (pool_factory normal_pair) tranche_defs
                     360 (8 # 100) (2 # 100) (60 # 100) (5 # 100) g ;;
      aggregate' <- add_pv (map fst aggregate) aggregate pv ;;
      runs_loop todo' aggregate' g'
  end.

Definition monte_carlo (runs : Z) (g : rng) : result (dict * rng) :=
  let aggregate0 := zero_pv tranche_defs in
  '(aggregate, g') <- runs_loop (Z.to_nat runs) aggregate0 g ;;
  averaged <- average runs (map fst aggregate) aggregate ;;
  Ok (averaged, g').

End Driver.

(** ** More vocabulary *)

(** The guard that opens [Mortgage.step], as a boolean. *)
Definition is_inert (m : Mortgage.t) : bool :=
  negb (Mortgage.alive m) || Qle_bool (Mortgage.balance m) eps.

(** The loans of a pool that a month really steps. *)
Definition active_count (ms : list Mortgage.t) : nat :=
  List.length (filter (fun m => negb (is_inert m)) ms).

Definition pool_balance (ms : list Mortgage.t) : Q := Qsum (map Mortgage.balance ms).


Definition keys (d : dict) : list string := map fst d.

Definition values (d : dict) : list Q := map snd d.

(** [t'] is the tranche [t] up to its balance. *)
Definition same_tranche (t t' : Tranche.t) : Prop :=
  Tranche.name t' = Tranche.name t /\ Tranche.coupon t' = Tranche.coupon t.

Definition has_spare (s : generator) : bool :=
  match gauss_next s with
  | Some _ => true
  | None => false
  end.

(** The uniform draws that [todo] iterations of the pool loop make: one
    for the principal, and two more when [random.gauss] has no spare
    deviate. *)
Fixpoint draws_used (todo : nat) (spare : bool) : nat :=
  match todo with
  | O => O
  | S todo' =>
      if spare then (1 + draws_used todo' false)%nat
      else (3 + draws_used todo' true)%nat
  end.

(** Whether a spare deviate is left after [todo] iterations. *)
Fixpoint spare_after (todo : nat) (spare : bool) : bool :=
  match todo with
  | O => spare
  | S todo' => spare_after todo' (negb spare)
  end.

(** Draws as [random.random()] makes them. *)
Definition unit_draws (g : rng) : Prop := forall i, 0 <= g i /\ g i <= 1.

(** A loan as [pool_factory] builds it. *)
Definition fresh_loan (m : Mortgage.t) : Prop :=
  Mortgage.alive m = true /\ Mortgage.term m = 360%Z /\
  Mortgage.remaining m = 360%Z /\ (1 # 100) <= Mortgage.rate m.

(** The generator after [k] more draws. *)
Definition advance (k : nat) (g : rng) : rng := fun i => g (i + k)%nat.

(** * The loan over binary64 numbers

    The same loan, with every operation rounding as the program's does.
    The definitions follow [Mortgage.create] and [Mortgage.step] line by
    line, as those of the main embedding do. *)

Module Binary64.

Local Open Scope float_scope.

(** The binary64 number nearest to [m * 2 ^ e] (ties to even). *)
Definition nearest (m e : Z) : float :=
  SF2Prim (binary_normalize prec emax m e false).

(** The conversion of an int operand to a float. *)
Definition int_to_float (z : Z) : result float :=
  let x := nearest z 0 in
  if is_infinity x then Raise OverflowError else Ok x.

(** The binary64 number nearest to [1 / (m * 2 ^ e)], through a quotient
    of more than 64 bits whose last bit records an inexact division. *)
Definition nearest_inverse (m : positive) (e : Z) : float :=
  let s := (Z.log2 (Zpos m) + 64)%Z in
  let q := (2 ^ s / Zpos m)%Z in
  let sticky := if (2 ^ s mod Zpos m =? 0)%Z then 0%Z else 1%Z in
  nearest (2 * q + sticky) (- s - 1 - e).

(** The integer that an integral float is. *)
Definition integer_value (y : float) : Z :=
  match Prim2SF y with
  | S754_finite s m e =>
      let v := if (0 <=? e)%Z then (Zpos m * 2 ^ e)%Z else (Zpos m / 2 ^ (- e))%Z in
      if s then (- v)%Z else v
  | _ => 0%Z
  end.

(** The power [b ^ e] of a finite non-zero float and an int, rounded to
    nearest. *)
Definition nearest_power (b : float) (e : Z) : float :=
  match Prim2SF b with
  | S754_finite s m ex =>
      let k := Z.abs e in
      let mk := (Zpos m ^ k)%Z in
      let magnitude :=
        if (0 <=? e)%Z then nearest mk (ex * k)
        else match mk with
             | Zpos p => nearest_inverse p (ex * k)
             | _ => nan
             end in
      if s && Z.odd e then - magnitude else magnitude
  | _ => nan
  end.

(** [b ** e] for a float [b] and an int [e], as [float_pow] of CPython
    computes it: the exponent is converted to a float, the special cases
    come first, an infinite power of finite operands raises, and a power
    too small for a float is zero.  The library's power is taken as the
    nearest float to the power, which it is wherever the power is itself
    a float. *)
Definition float_pow_int (b : float) (e : Z) : result float :=
  y <- int_to_float e ;;
  let odd := Z.odd (integer_value y) in
  if y =? 0 then Ok 1
  else if is_nan b then Ok b
  else if is_infinity b then
    Ok (if 0 <? y then (if odd then b else PrimFloat.abs b)
        else (if odd && (b <? 0) then - 0 else 0))
  else if b =? 0 then
    if y <? 0 then Raise ZeroDivisionError else Ok (if odd then b else 0)
  else if PrimFloat.abs b =? 1 then Ok (if odd && (b <? 0) then - 1 else 1)
  else
    let v := nearest_power b (integer_value y) in
    if is_infinity v then Raise OverflowError else Ok v.

(** [a / b] on floats. *)
Definition float_div (a b : float) : result float :=
  if b =? 0 then Raise ZeroDivisionError else Ok (a / b).

(** Python's [min] of two floats: the first unless the second is less. *)
Definition min (a b : float) : float := if b <? a then b else a.

(** The float that the literal [1e-9] denotes. *)
Definition eps : float := 0x1.12e0be826d695p-30.

(** A float, or the complex number that a negative base gives. *)
Inductive number : Type :=
| Real (x : float)
| Complex.

(** [x ** (1 / 12)]: complex on a negative base, 1.0 on the base 1.0 and
    0.0 on the base 0.0 whatever the exponent 1 / 12 rounds to;
    [root12] is the library's power elsewhere. *)
Definition pow_twelfth (root12 : float -> float) (x : float) : number :=
  if x <? 0 then Complex
  else if x =? 1 then Real 1
  else if x =? 0 then Real 0
  else Real (root12 x).

Definition one_minus (z : number) : number :=
  match z with
  | Real x => Real (1 - x)
  | Complex => Complex
  end.

Definition rng : Type := nat -> float.

Definition random (g : rng) : float * rng := (g O, fun n => g (S n)).

Record cashflow : Type := mkCashflow {
  cf_interest : float;
  cf_principal : float;
  cf_loss : float
}.

Module Mortgage.

Record t : Type := mk {
  balance : float;
  rate : float;
  term : Z;
  remaining : Z;
  payment : float;
  alive : bool
}.

Definition create (principal rate : float) (term_months : Z) : result t :=
  let monthly_rate := rate / 12 in
  let numerator := principal * monthly_rate in
  p <- float_pow_int (1 + monthly_rate) (- term_months) ;;
  payment <- float_div numerator (1 - p) ;;
  Ok (mk principal rate term_months term_months payment true).

Definition step (root12 : float -> float) (self : t) (cpr cdr recovery : float)
  (g : rng) : result (cashflow * t * rng) :=
  if negb (alive self) || (balance self <=? eps) then
    Ok (mkCashflow 0 0 0, self, g)
  else
    let monthly_default := one_minus (pow_twelfth root12 (1 - cdr)) in
    let monthly_prepay := one_minus (pow_twelfth root12 (1 - cpr)) in
    let interest := balance self * (rate self / 12) in
    let scheduled_principal := min (payment self - interest) (balance self) in
    let (u, g') := random g in
    match monthly_default with
    | Complex => Raise TypeError
    | Real md =>
        if u <? md then
          let cash_recovered := balance self * recovery in
          let credit_loss := balance self - cash_recovered in
          Ok (mkCashflow 0 cash_recovered credit_loss,
              mk 0 (rate self) (term self) (remaining self) (payment self) false,
              g')
        else
          match monthly_prepay with
          | Complex => Raise TypeError
          | Real mp =>
              let prepay_amount := (balance self - scheduled_principal) * mp in
              let total_principal :=
                min (balance self) (scheduled_principal + prepay_amount) in
              let balance' := balance self - total_principal in
              let remaining' := (remaining self - 1)%Z in
              let alive' :=
                if (remaining' <=? 0)%Z || (balance' <=? eps) then false
                else alive self in
              Ok (mkCashflow interest total_principal 0,
                  mk balance' (rate self) (term self) remaining' (payment self) alive',
                  g')
          end
    end.

End Mortgage.

(** Stepping one loan once per month for [n] months. *)
Fixpoint step_months (root12 : float -> float) (n : nat) (m : Mortgage.t)
  (cpr cdr recovery : float) (g : rng) : result (list cashflow * Mortgage.t) :=
  match n with
  | O => Ok ([], m)
  | S n' =>
      '(cf, m', g') <- Mortgage.step root12 m cpr cdr recovery g ;;
      '(cfs, m'') <- step_months root12 n' m' cpr cdr recovery g' ;;
      Ok (cf :: cfs, m'')
  end.

(** The sum of the principal cashflows, added up from the left. *)
Definition principal_sum (cfs : list cashflow) : float :=
  fold_left (fun acc cf => acc + cf_principal cf) cfs 0.

End Binary64.

(** * Properties *)

(** ** Comparisons and [min] *)

Lemma Qle_bool_false (x y : Q) : Qle_bool x y = false <-> y < x.
Proof.
  split; intro H.
  - apply Qnot_le_lt. intro Hle. apply Qle_bool_iff in Hle. congruence.
  - destruct (Qle_bool x y) eqn:E; [|reflexivity].
    apply Qle_bool_iff in E. lra.
Qed.

Lemma Qlt_bool_iff (x y : Q) : Qlt_bool x y = true <-> x < y.
Proof.
  unfold Qlt_bool. rewrite negb_true_iff. apply Qle_bool_false.
Qed.

Lemma Qlt_bool_false (x y : Q) : Qlt_bool x y = false <-> y <= x.
Proof.
  unfold Qlt_bool. rewrite negb_false_iff. apply Qle_bool_iff.
Qed.

Lemma Qeq_bool_false (x y : Q) : Qeq_bool x y = false <-> ~ x == y.
Proof.
  split; intro H.
  - now apply Qeq_bool_neq.
  - destruct (Qeq_bool x y) eqn:E; [|reflexivity].
    apply Qeq_bool_iff in E. contradiction.
Qed.

Lemma Qmin_cases (x y : Q) :
  (x <= y /\ Qmin x y == x) \/ (y <= x /\ Qmin x y == y).
Proof.
  destruct (Q.min_spec x y) as [[H E]|[H E]]; [left|right]; split; auto; lra.
Qed.

(** Case analysis on every [Qmin] of the goal, closing with linear
    arithmetic. *)
Ltac qmin_lra :=
  repeat match goal with
         | |- context [Qmin ?a ?b] =>
             let H := fresh "Hmin" in
             let E := fresh "Emin" in
             destruct (Qmin_cases a b) as [[H E]|[H E]];
             revert E; generalize (Qmin a b); intros ? E
         end;
  lra.

(** ** The annuity denominator *)

Lemma monthly_base_pos (r : Q) : 0 <= r -> Qeq_bool (1 + r / 12) 0 = false.
Proof.
  intro H. apply Qeq_bool_false. intro E.
  assert (0 <= r / 12) by (apply Qle_shift_div_l; lra). lra.
Qed.

Lemma annuity_denominator (r : Q) (n : Z) :
  0 <= r -> (1 - (1 + r / 12) ^ (- n) == 0 <-> r == 0 \/ n = 0%Z).
Proof.
  intro Hr. split.
  - intro E.
    destruct (Qlt_le_dec 0 r) as [Hpos|Hle]; [|left; lra].
    destruct (Z.eq_dec n 0) as [Hn|Hn]; [now right|exfalso].
    assert (Hb : 1 < 1 + r / 12).
    { assert (0 < r / 12) by (apply Qlt_shift_div_l; lra). lra. }
    destruct (Z.lt_total (- n) 0) as [Hlt|[Heq|Hgt]]; [| lia |].
    + pose proof (Qpower_lt_compat_l _ _ _ Hlt Hb) as Hp.
      change ((1 + r / 12) ^ 0) with 1 in Hp. lra.
    + pose proof (Qpower_lt_compat_l _ _ _ Hgt Hb) as Hp.
      change ((1 + r / 12) ^ 0) with 1 in Hp. lra.
  - intros [E|E].
    + assert (Hb : 1 + r / 12 == 1) by (rewrite E; reflexivity).
      rewrite Hb, Qpower_1. reflexivity.
    + subst n. reflexivity.
Qed.

(** ** The power of a float to an int *)

Lemma thresholds_pos : 0 < underflow_threshold /\ underflow_threshold < 1 /\
                       1 < overflow_threshold.
Proof. repeat split; reflexivity. Qed.

Lemma int_to_float_ok (z : Z) :
  Qabs (inject_Z z) < overflow_threshold -> int_to_float z = Ok (inject_Z z).
Proof.
  intro H. unfold int_to_float. apply Qle_bool_false in H. now rewrite H.
Qed.

(** A power within the range of floats is returned, as it is or as zero
    when it underflows. *)
Lemma float_pow_int_ok (b : Q) (e : Z) :
  Qabs (inject_Z e) < overflow_threshold ->
  Qeq_bool b 0 && (e <? 0)%Z = false ->
  Qabs (b ^ e) < overflow_threshold ->
  exists p,
    float_pow_int b e = Ok p /\
    ((underflow_threshold < Qabs (b ^ e) /\ p = b ^ e) \/
     (Qabs (b ^ e) <= underflow_threshold /\ p = 0)).
Proof.
  intros He Hz Hv. unfold float_pow_int.
  rewrite (int_to_float_ok e He). cbn [bind]. rewrite Hz.
  apply Qle_bool_false in Hv. cbn zeta. rewrite Hv.
  destruct (Qle_bool (Qabs (b ^ e)) underflow_threshold) eqn:E.
  - exists 0. split; [reflexivity|]. right. apply Qle_bool_iff in E. now split.
  - exists (b ^ e). split; [reflexivity|]. left. apply Qle_bool_false in E. now split.
Qed.

(** What [float_pow_int] returns is zero or the power. *)
Lemma float_pow_int_value (b : Q) (e : Z) (p : Q) :
  float_pow_int b e = Ok p ->
  Qabs (inject_Z e) < overflow_threshold /\
  ((underflow_threshold < Qabs (b ^ e) /\ p = b ^ e) \/
   (Qabs (b ^ e) <= underflow_threshold /\ p = 0)).
Proof.
  unfold float_pow_int, int_to_float.
  destruct (Qle_bool overflow_threshold (Qabs (inject_Z e))) eqn:Ee; cbn [bind];
    [discriminate|].
  apply Qle_bool_false in Ee.
  destruct (Qeq_bool b 0 && (e <? 0)%Z); [discriminate|]. cbn zeta.
  destruct (Qle_bool overflow_threshold (Qabs (b ^ e))); [discriminate|].
  destruct (Qle_bool (Qabs (b ^ e)) underflow_threshold) eqn:E; intro H;
    injection H as <-; (split; [exact Ee|]).
  - right. apply Qle_bool_iff in E. now split.
  - left. apply Qle_bool_false in E. now split.
Qed.

(** A base above 1 to a negative power is a fraction. *)
Lemma power_fraction (b : Q) (n : Z) :
  1 < b -> (0 < n)%Z -> 0 < b ^ (- n) /\ b ^ (- n) < 1.
Proof.
  intros Hb Hn. split.
  - apply Qpower_0_lt. lra.
  - change 1 with (b ^ 0). apply Qpower_lt_compat_l; [lia | exact Hb].
Qed.

(** ** Loan creation *)

(** [create] on a positive rate and a positive term that a float can
    hold: the power is a fraction [p], possibly zero, and the payment is
    the formula on it. *)
Lemma create_payment (principal r : Q) (n : Z) :
  0 < r -> (0 < n)%Z -> inject_Z n < overflow_threshold ->
  exists p pay,
    float_pow_int (1 + r / 12) (- n) = Ok p /\ 0 <= p /\ p < 1 /\
    (underflow_threshold < (1 + r / 12) ^ (- n) -> p = (1 + r / 12) ^ (- n)) /\
    Mortgage.create principal r n = Ok (Mortgage.mk principal r n n pay true) /\
    pay = principal * (r / 12) / (1 - p).
Proof.
  intros Hr Hn Hfit.
  assert (Hb : 1 < 1 + r / 12).
  { assert (0 < r / 12) by (apply Qlt_shift_div_l; lra). lra. }
  destruct (power_fraction _ n Hb Hn) as [Hp0 Hp1].
  destruct thresholds_pos as (Hu0 & Hu1 & Ho).
  assert (Habs : Qabs ((1 + r / 12) ^ (- n)) == (1 + r / 12) ^ (- n))
    by (apply Qabs_pos; lra).
  destruct (float_pow_int_ok (1 + r / 12) (- n)) as (p & Ep & Hcase).
  { rewrite inject_Z_opp, Qabs_opp, Qabs_pos; [exact Hfit|].
    change 0 with (inject_Z 0). rewrite <- Zle_Qle. lia. }
  { rewrite monthly_base_pos by lra. reflexivity. }
  { rewrite Habs. lra. }
  assert (Hp : 0 <= p /\ p < 1).
  { destruct Hcase as [[_ ->]|[_ ->]]; lra. }
  exists p, (principal * (r / 12) / (1 - p)).
  split; [exact Ep|]. split; [apply Hp|]. split; [apply Hp|]. split.
  - intro Hbig. destruct Hcase as [[_ ->]|[Hle _]]; [reflexivity|].
    rewrite Habs in Hle. lra.
  - split; [|reflexivity].
    unfold Mortgage.create. rewrite Ep. cbn [bind]. unfold float_div.
    assert (E : Qeq_bool (1 - p) 0 = false) by (apply Qeq_bool_false; lra).
    rewrite E. reflexivity.
Qed.

(** C8, as stated, fails: with annual rate 3 (monthly 0.25) and a term of
    -1 month the formula is 1000 * 0.25 / (1 - 1.25) and nothing is
    raised, although the term is not positive. *)
Lemma create_negative_term_succeeds :
  ~ ((exists e, Mortgage.create 1000 3 (-1) = Raise e) <-> (3 == 0 \/ (-1 <= 0)%Z)).
Proof.
  intros [_ H].
  destruct H as [e He]; [right; lia|].
  vm_compute in He. discriminate He.
Qed.

(** The counterexample is one of the program's floats too, where the
    payment is -1000. *)
Lemma create_negative_term_binary64 :
  Binary64.Mortgage.create 1000 3 (-1)
  = Ok (Binary64.Mortgage.mk 1000 3 (-1) (-1) (-1000) true).
Proof. vm_compute. reflexivity. Qed.

(** A negative term can also raise [OverflowError]: with annual rate 12
    and a term of -1024 months the power is 2^1024. *)
Lemma create_negative_term_overflow :
  Mortgage.create 1000 12 (-1024) = Raise OverflowError /\
  Binary64.Mortgage.create 1000 12 (-1024) = Raise OverflowError.
Proof. split; vm_compute; reflexivity. Qed.

(** A positive rate does not make creation succeed in floats: at the
    annual rate 2^-60 the base 1 + rate / 12 is rounded to 1.0, and the
    division is by zero. *)
Lemma create_tiny_rate_raises :
  Binary64.Mortgage.create 1000 0x1p-60 12 = Raise ZeroDivisionError.
Proof. vm_compute. reflexivity. Qed.

(** C8 (amended): creation raises [ZeroDivisionError] when the term is 0,
    and when the annual rate is 0 (the term being an int that a float can
    hold); a negative term is not rejected as such.  Whenever creation
    returns a loan, the power in the annuity formula was within the range
    of floats, the denominator 1 - power was not zero, the payment is the
    formula principal * monthly_rate / (1 - power), and the other fields
    are the arguments. *)
Theorem create_division_by_zero (principal r : Q) (n : Z) :
  (n = 0%Z \/ (r == 0 /\ Qabs (inject_Z n) < overflow_threshold) ->
   Mortgage.create principal r n = Raise ZeroDivisionError) /\
  (forall m,
     Mortgage.create principal r n = Ok m ->
     exists p,
       float_pow_int (1 + r / 12) (- n) = Ok p /\
       (p = (1 + r / 12) ^ (- n) \/ p = 0) /\
       ~ 1 - p == 0 /\
       m = Mortgage.mk principal r n n (Mortgage.payment m) true /\
       Mortgage.payment m = principal * (r / 12) / (1 - p)).
Proof.
  split.
  - intros H.
    destruct thresholds_pos as (Hu0 & Hu1 & Ho).
    assert (Hn : Qabs (inject_Z n) < overflow_threshold).
    { destruct H as [->|[_ Hn]]; [reflexivity | exact Hn]. }
    assert (Hz : Qeq_bool (1 + r / 12) 0 && (- n <? 0)%Z = false).
    { destruct H as [->|[Hr _]]; [apply Bool.andb_false_r|].
      assert (E : Qeq_bool (1 + r / 12) 0 = false)
        by (apply Qeq_bool_false; rewrite Hr; discriminate).
      now rewrite E. }
    assert (Hv : (1 + r / 12) ^ (- n) == 1).
    { destruct H as [->|[Hr _]]; [reflexivity|].
      assert (Hb : 1 + r / 12 == 1) by (rewrite Hr; reflexivity).
      rewrite Hb. apply Qpower_1. }
    destruct (float_pow_int_ok (1 + r / 12) (- n)) as (p & Ep & Hcase).
    { now rewrite inject_Z_opp, Qabs_opp. }
    { exact Hz. }
    { rewrite Hv. exact Ho. }
    unfold Mortgage.create. rewrite Ep. cbn [bind]. unfold float_div.
    destruct Hcase as [[_ ->]|[Hle _]].
    + assert (E : Qeq_bool (1 - (1 + r / 12) ^ (- n)) 0 = true)
        by (apply Qeq_bool_iff; rewrite Hv; reflexivity).
      now rewrite E.
    + rewrite Hv in Hle. exfalso. revert Hle. apply Qlt_not_le. exact Hu1.
  - intros m. unfold Mortgage.create.
    destruct (float_pow_int (1 + r / 12) (- n)) as [p|e] eqn:Ep; cbn [bind];
      [|discriminate].
    unfold float_div. destruct (Qeq_bool (1 - p) 0) eqn:E; [discriminate|].
    cbn [bind]. intro H. injection H as <-.
    exists p. split; [reflexivity|]. split.
    + destruct (float_pow_int_value _ _ _ Ep) as [_ [[_ ->]|[_ ->]]];
        [now left | now right].
    + split; [now apply Qeq_bool_false|]. now split.
Qed.

(** ** The monthly step *)

Lemma step_inert (root12 : Q -> Q) (m : Mortgage.t) (cpr cdr recovery : Q) (g : rng) :
  inert m ->
  Mortgage.step root12 m cpr cdr recovery g = Ok (mkCashflow 0 0 0, m, g).
Proof.
  intros [H|H]; unfold Mortgage.step.
  - rewrite H. reflexivity.
  - apply Qle_bool_iff in H. rewrite H, orb_true_r. reflexivity.
Qed.

(** C6: on an inert loan the step returns the all-zero cashflow, the loan
    unchanged in every field and the generator untouched, whatever CPR,
    CDR and recovery are; hence the loan is inert again afterwards, and
    any number of further steps does the same. *)
Theorem step_inert_absorbing (root12 : Q -> Q) (m : Mortgage.t)
  (cpr cdr recovery : Q) (g : rng) :
  inert m ->
  Mortgage.step root12 m cpr cdr recovery g = Ok (mkCashflow 0 0 0, m, g) /\
  forall n, step_months root12 n m cpr cdr recovery g
            = Ok (repeat (mkCashflow 0 0 0) n, m, g).
Proof.
  intro H. split; [now apply step_inert|].
  induction n as [|n IH]; [reflexivity|].
  cbn [step_months]. rewrite (step_inert _ _ _ _ _ _ H). cbn [bind].
  rewrite IH. reflexivity.
Qed.

Lemma step_inert_absorbing_witness :
  inert dead_loan /\
  Mortgage.step (fun x => x) dead_loan 2 3 (-1) draws_075
  = Ok (mkCashflow 0 0 0, dead_loan, draws_075).
Proof.
  assert (H : inert dead_loan) by (left; reflexivity).
  split; [exact H|].
  exact (proj1 (step_inert_absorbing (fun x => x) dead_loan 2 3 (-1) draws_075 H)).
Defined.

(** C5: on a live loan whose balance exceeds the tolerance, when the
    default trial fires, the step returns interest 0, principal
    balance * recovery and loss balance * (1 - recovery); the loan is left
    with balance 0 and not alive, and with its rate, term, remaining
    months and payment as they were: no amortization and no prepayment
    takes place, whatever CPR is. *)
Theorem step_default (root12 : Q -> Q) (m : Mortgage.t) (cpr cdr recovery : Q) (g : rng) :
  Mortgage.alive m = true ->
  eps < Mortgage.balance m ->
  default_fires root12 cdr g ->
  exists cf m',
    Mortgage.step root12 m cpr cdr recovery g = Ok (cf, m', snd (random g)) /\
    cf_interest cf = 0 /\
    cf_principal cf = Mortgage.balance m * recovery /\
    cf_loss cf == Mortgage.balance m * (1 - recovery) /\
    Mortgage.balance m' = 0 /\ Mortgage.alive m' = false /\
    Mortgage.rate m' = Mortgage.rate m /\ Mortgage.term m' = Mortgage.term m /\
    Mortgage.remaining m' = Mortgage.remaining m /\
    Mortgage.payment m' = Mortgage.payment m.
Proof.
  intros Ha Hb Hfire. unfold Mortgage.step.
  rewrite Ha. apply Qle_bool_false in Hb. rewrite Hb. cbn [negb orb].
  unfold default_fires in Hfire.
  destruct (one_minus (pow_twelfth root12 (1 - cdr))) as [md|]; [|contradiction].
  cbn [random fst snd] in *.
  apply Qlt_bool_iff in Hfire. rewrite Hfire.
  do 2 eexists. split; [reflexivity|]. cbn.
  repeat split; try reflexivity. ring.
Qed.

Lemma step_default_witness :
  Mortgage.alive live_loan = true /\
  eps < Mortgage.balance live_loan /\
  default_fires (fun x => x) (1 # 2) (fun _ => 1 # 8) /\
  exists cf m',
    Mortgage.step (fun x => x) live_loan 2 (1 # 2) (1 # 4) (fun _ => 1 # 8)
    = Ok (cf, m', fun _ => 1 # 8) /\
    cf_interest cf = 0 /\
    cf_principal cf = Mortgage.balance live_loan * (1 # 4) /\
    cf_loss cf == Mortgage.balance live_loan * (1 - (1 # 4)) /\
    Mortgage.balance m' = 0 /\ Mortgage.alive m' = false /\
    Mortgage.rate m' = Mortgage.rate live_loan /\
    Mortgage.term m' = Mortgage.term live_loan /\
    Mortgage.remaining m' = Mortgage.remaining live_loan /\
    Mortgage.payment m' = Mortgage.payment live_loan.
Proof.
  assert (H1 : Mortgage.alive live_loan = true) by reflexivity.
  assert (H2 : eps < Mortgage.balance live_loan) by reflexivity.
  assert (H3 : default_fires (fun x => x) (1 # 2) (fun _ => 1 # 8)) by reflexivity.
  split; [exact H1|]. split; [exact H2|]. split; [exact H3|].
  exact (step_default (fun x => x) live_loan 2 (1 # 2) (1 # 4)
           (fun _ => 1 # 8) H1 H2 H3).
Defined.

(** ** Sums *)

Lemma Qsum_cons (a : Q) (l : list Q) : Qsum (a :: l) = a + Qsum l.
Proof. reflexivity. Qed.

Lemma Qsum_nil : Qsum [] = 0.
Proof. reflexivity. Qed.

Lemma Qsum_app (l1 l2 : list Q) : Qsum (l1 ++ l2) == Qsum l1 + Qsum l2.
Proof.
  induction l1 as [|a l1 IH]; cbn [app].
  - rewrite Qsum_nil. ring.
  - rewrite !Qsum_cons, IH. ring.
Qed.

Lemma Qsum_rev (l : list Q) : Qsum (rev l) == Qsum l.
Proof.
  induction l as [|a l IH]; cbn [rev]; [reflexivity|].
  rewrite Qsum_app, IH, !Qsum_cons, Qsum_nil. ring.
Qed.

Lemma total_balance_cons (t : Tranche.t) (l : list Tranche.t) :
  total_balance (t :: l) = Tranche.balance t + total_balance l.
Proof. reflexivity. Qed.

Lemma total_balance_rev (l : list Tranche.t) : total_balance (rev l) == total_balance l.
Proof. unfold total_balance. rewrite map_rev. apply Qsum_rev. Qed.


(** ** Loss allocation *)

Section LossLoop.

Lemma loop_length (visit : list Tranche.t) :
  forall loss, List.length (allocate_losses_loop loss visit) = List.length visit.
Proof.
  induction visit as [|tr rest IH]; intro loss; cbn; [reflexivity|].
  destruct (Qle_bool _ eps); cbn; [reflexivity|]. now rewrite IH.
Qed.

(** What the tranches lose is what the loss variable loses. *)
Lemma loop_total (visit : list Tranche.t) :
  forall loss,
    total_balance (allocate_losses_loop loss visit)
    == total_balance visit - (loss - loss_left loss visit).
Proof.
  induction visit as [|tr rest IH]; intro loss; cbn [allocate_losses_loop loss_left].
  - cbn. ring.
  - destruct (Qle_bool (loss - Qmin (Tranche.balance tr) loss) eps);
      rewrite !total_balance_cons; cbn [Tranche.set_balance Tranche.balance];
      [|rewrite IH]; ring.
Qed.


Lemma loss_left_le (visit : list Tranche.t) :
  forall loss, Forall nonneg_balance visit -> 0 <= loss -> loss_left loss visit <= loss.
Proof.
  induction visit as [|tr rest IH]; intros loss Hv Hl; cbn [loss_left]; [lra|].
  inversion Hv as [|? ? Ht Hrest]; subst. unfold nonneg_balance in Ht.
  assert (H : loss - Qmin (Tranche.balance tr) loss <= loss) by qmin_lra.
  assert (H0 : 0 <= loss - Qmin (Tranche.balance tr) loss) by qmin_lra.
  destruct (Qle_bool _ eps); [exact H|].
  specialize (IH _ Hrest H0). lra.
Qed.




End LossLoop.

Lemma Forall2_rev {A B : Type} (R : A -> B -> Prop) (l : list A) (l' : list B) :
  Forall2 R l l' -> Forall2 R (rev l) (rev l').
Proof.
  induction 1 as [|a b l l' Hab _ IH]; cbn [rev]; [constructor|].
  apply Forall2_app; [exact IH | repeat constructor; exact Hab].
Qed.

(** A pointwise relation between the visited tranches and the loop's
    result is one between the tranche list and the result of
    [allocate_losses]. *)
Lemma allocate_losses_pointwise (R : Tranche.t -> Tranche.t -> Prop)
  (loss : Q) (ts : list Tranche.t) :
  Forall2 R (rev ts) (allocate_losses_loop loss (rev ts)) ->
  Forall2 R ts (allocate_losses loss ts).
Proof.
  intro H. apply Forall2_rev in H. rewrite rev_involutive in H. exact H.
Qed.

Lemma allocate_losses_total (loss : Q) (ts : list Tranche.t) :
  total_balance (allocate_losses loss ts)
  == total_balance ts - (loss - loss_left loss (rev ts)).
Proof.
  unfold allocate_losses.
  rewrite total_balance_rev, loop_total, total_balance_rev. reflexivity.
Qed.







(** ** Interest and principal allocation *)

Lemma Qmin_eq_r (a x y : Q) : x == y -> Qmin a x == Qmin a y.
Proof. intro E. qmin_lra. Qed.

Lemma pay_principal_cons (pool : Q) (tr : Tranche.t) (rest : list Tranche.t) :
  pay_principal pool (tr :: rest)
  = (Tranche.set_balance tr
       (Tranche.balance tr - Qmin (Tranche.balance tr) pool)
       :: principal_tranches (pool - Qmin (Tranche.balance tr) pool) rest,
     Qmin (Tranche.balance tr) pool
       :: principal_payments (pool - Qmin (Tranche.balance tr) pool) rest,
     principal_leftover (pool - Qmin (Tranche.balance tr) pool) rest).
Proof.
  unfold principal_tranches, principal_payments, principal_leftover.
  cbn [pay_principal].
  destruct (pay_principal (pool - Qmin (Tranche.balance tr) pool) rest) as [[? ?] ?].
  reflexivity.
Qed.

Lemma pay_interest_cons (pool : Q) (tr : Tranche.t) (rest : list Tranche.t) :
  pay_interest pool (tr :: rest)
  = (Qmin (Tranche.balance tr * Tranche.coupon tr / 12) pool
       :: fst (pay_interest
                 (pool - Qmin (Tranche.balance tr * Tranche.coupon tr / 12) pool) rest),
     snd (pay_interest
            (pool - Qmin (Tranche.balance tr * Tranche.coupon tr / 12) pool) rest)).
Proof.
  cbn [pay_interest].
  destruct (pay_interest _ rest) as [? ?]. reflexivity.
Qed.

Ltac principal_cons :=
  unfold principal_tranches, principal_payments, principal_leftover;
  rewrite pay_principal_cons; cbn [fst snd];
  fold principal_tranches principal_payments principal_leftover.

Lemma pay_interest_length (ts : list Tranche.t) :
  forall pool, List.length (fst (pay_interest pool ts)) = List.length ts.
Proof.
  induction ts as [|tr rest IH]; intro pool; [reflexivity|].
  rewrite pay_interest_cons. cbn [fst List.length]. now rewrite IH.
Qed.

Lemma pay_interest_left (ts : list Tranche.t) :
  forall pool, snd (pay_interest pool ts) == pool - Qsum (fst (pay_interest pool ts)).
Proof.
  induction ts as [|tr rest IH]; intro pool.
  - cbn [pay_interest fst snd]. rewrite Qsum_nil. ring.
  - rewrite pay_interest_cons. cbn [fst snd]. rewrite Qsum_cons, IH. ring.
Qed.

(** The [i]-th tranche is paid its due, capped at what the more senior
    tranches left of the pool. *)
Lemma pay_interest_nth (ts : list Tranche.t) :
  forall pool i t,
    nth_error ts i = Some t ->
    exists paid,
      nth_error (fst (pay_interest pool ts)) i = Some paid /\
      paid == Qmin (Tranche.balance t * Tranche.coupon t / 12)
                (pool - Qsum (firstn i (fst (pay_interest pool ts)))).
Proof.
  induction ts as [|tr rest IH]; intros pool i t Hi.
  - destruct i; discriminate Hi.
  - rewrite pay_interest_cons. cbn [fst]. destruct i as [|i].
    + injection Hi as ->. eexists. split; [reflexivity|].
      cbn [firstn]. apply Qmin_eq_r. rewrite Qsum_nil. ring.
    + cbn [nth_error] in Hi.
      destruct (IH (pool - Qmin (Tranche.balance tr * Tranche.coupon tr / 12) pool) i t Hi)
        as (paid & Hn & Hp).
      exists paid. split; [exact Hn|].
      rewrite Hp. cbn [firstn]. apply Qmin_eq_r. rewrite Qsum_cons. ring.
Qed.

Lemma pay_interest_nonneg (ts : list Tranche.t) :
  forall pool,
    Forall tranche_ok ts -> 0 <= pool ->
    Forall (Qle 0) (fst (pay_interest pool ts)) /\ 0 <= snd (pay_interest pool ts).
Proof.
  induction ts as [|tr rest IH]; intros pool Hts Hp.
  - cbn [pay_interest fst snd]. split; [constructor | exact Hp].
  - inversion Hts as [|? ? [Hb Hc] Hrest]; subst.
    rewrite pay_interest_cons. cbn [fst snd].
    assert (Hdue : 0 <= Tranche.balance tr * Tranche.coupon tr / 12).
    { apply Qle_shift_div_l; [reflexivity|]. rewrite Qmult_0_l.
      now apply Qmult_le_0_compat. }
    destruct (IH (pool - Qmin (Tranche.balance tr * Tranche.coupon tr / 12) pool) Hrest)
      as [F L]; [qmin_lra|].
    split; [constructor; [qmin_lra | exact F] | exact L].
Qed.

Lemma pay_principal_length (ts : list Tranche.t) :
  forall pool,
    List.length (principal_tranches pool ts) = List.length ts /\
    List.length (principal_payments pool ts) = List.length ts.
Proof.
  induction ts as [|tr rest IH]; intro pool; [split; reflexivity|].
  principal_cons. cbn [List.length].
  destruct (IH (pool - Qmin (Tranche.balance tr) pool)) as [-> ->]. now split.
Qed.

Lemma pay_principal_left (ts : list Tranche.t) :
  forall pool, principal_leftover pool ts == pool - Qsum (principal_payments pool ts).
Proof.
  induction ts as [|tr rest IH]; intro pool.
  - unfold principal_leftover, principal_payments. cbn [pay_principal fst snd].
    rewrite Qsum_nil. ring.
  - principal_cons. rewrite Qsum_cons, IH. ring.
Qed.

(** A non-negative pool pays non-negative amounts and never raises a
    balance. *)
Lemma pay_principal_nonneg (ts : list Tranche.t) :
  forall pool,
    Forall nonneg_balance ts -> 0 <= pool ->
    Forall (Qle 0) (principal_payments pool ts) /\
    0 <= principal_leftover pool ts /\
    Forall2 paid_down ts (principal_tranches pool ts).
Proof.
  induction ts as [|tr rest IH]; intros pool Hts Hp.
  - unfold principal_leftover, principal_payments, principal_tranches.
    cbn [pay_principal fst snd]. repeat constructor. exact Hp.
  - inversion Hts as [|? ? Hb Hrest]; subst. unfold nonneg_balance in Hb.
    principal_cons.
    destruct (IH (pool - Qmin (Tranche.balance tr) pool) Hrest) as (F & L & D);
      [qmin_lra|].
    split; [constructor; [qmin_lra | exact F]|].
    split; [exact L|].
    constructor; [|exact D].
    unfold paid_down. cbn. repeat split; qmin_lra.
Qed.

(** Once the pool is empty, tranches with non-negative balances receive
    nothing. *)
Lemma pay_principal_empty_pool (ts : list Tranche.t) :
  forall pool,
    Forall nonneg_balance ts -> pool == 0 ->
    Forall (fun p => p == 0) (principal_payments pool ts).
Proof.
  induction ts as [|tr rest IH]; intros pool Hts Hp.
  - constructor.
  - inversion Hts as [|? ? Hb Hrest]; subst. unfold nonneg_balance in Hb.
    principal_cons. constructor; [qmin_lra|].
    apply IH; [exact Hrest | qmin_lra].
Qed.

Lemma sequential_pay_step (ts : list Tranche.t) :
  forall pool i prev',
    nth_error (principal_tranches pool ts) i = Some prev' ->
    retired prev' \/ pool - Qsum (firstn (S i) (principal_payments pool ts)) == 0.
Proof.
  induction ts as [|tr rest IH]; intros pool i prev'.
  - destruct i; discriminate.
  - principal_cons. destruct i as [|i].
    + intro H. injection H as <-. unfold retired. cbn [firstn].
      rewrite Qsum_cons, Qsum_nil. cbn [Tranche.set_balance Tranche.balance].
      destruct (Qmin_cases (Tranche.balance tr) pool) as [[_ E]|[_ E]];
        [left|right]; rewrite E; ring.
    + cbn [nth_error]. intro H.
      destruct (IH _ _ _ H) as [Hr|Hr]; [now left|right].
      rewrite firstn_cons, Qsum_cons. rewrite <- Hr. ring.
Qed.

(** With non-negative balances, a tranche that receives a non-zero
    payment has every more senior tranche retired. *)
Lemma sequential_pay_strict (ts : list Tranche.t) :
  forall pool i pay,
    Forall nonneg_balance ts ->
    nth_error (principal_payments pool ts) i = Some pay ->
    ~ pay == 0 ->
    Forall retired (firstn i (principal_tranches pool ts)).
Proof.
  induction ts as [|tr rest IH]; intros pool i pay Hts.
  - destruct i; discriminate.
  - inversion Hts as [|? ? Hb Hrest]; subst.
    principal_cons. destruct i as [|i]; [constructor|].
    cbn [nth_error firstn]. intros Hn Hpay.
    constructor; [|now apply (IH _ _ pay)].
    unfold retired. cbn [Tranche.set_balance Tranche.balance].
    destruct (Qmin_cases (Tranche.balance tr) pool) as [[_ E]|[_ E]];
      [rewrite E; ring|exfalso].
    assert (Hz : pool - Qmin (Tranche.balance tr) pool == 0) by (rewrite E; ring).
    pose proof (pay_principal_empty_pool rest _ Hrest Hz) as Hall.
    rewrite Forall_forall in Hall.
    apply Hpay, Hall. eapply nth_error_In, Hn.
Qed.

(** C3: in the principal loop, when the tranche at position i + 1 receives
    a non-zero payment, the tranche at position i ended with balance
    exactly 0 or the pool was exhausted before the loop reached position
    i + 1 (what the more senior tranches received is the whole pool).
    When the balances are non-negative the first case holds, for every
    more senior tranche. *)
Theorem sequential_pay (pool : Q) (ts : list Tranche.t) (i : nat)
  (prev' : Tranche.t) (pay : Q) :
  nth_error (principal_tranches pool ts) i = Some prev' ->
  nth_error (principal_payments pool ts) (S i) = Some pay ->
  ~ pay == 0 ->
  (retired prev' \/ pool - Qsum (firstn (S i) (principal_payments pool ts)) == 0) /\
  (Forall nonneg_balance ts ->
   Forall retired (firstn (S i) (principal_tranches pool ts))).
Proof.
  intros Hprev Hpay Hnz. split.
  - now apply (sequential_pay_step ts pool i).
  - intro Hts. now apply (sequential_pay_strict ts pool (S i) pay).
Qed.

Lemma sequential_pay_witness :
  nth_error (principal_tranches 12
               [Tranche.mk "Senior" 10 0; Tranche.mk "Mezz" 6 0]) 0
    = Some (Tranche.mk "Senior" (10 - 10) 0) /\
  nth_error (principal_payments 12
               [Tranche.mk "Senior" 10 0; Tranche.mk "Mezz" 6 0]) 1
    = Some (12 - 10) /\
  ~ 12 - 10 == 0 /\
  (retired (Tranche.mk "Senior" (10 - 10) 0) \/
   12 - Qsum (firstn 1 (principal_payments 12
                          [Tranche.mk "Senior" 10 0; Tranche.mk "Mezz" 6 0])) == 0).
Proof.
  assert (H1 : nth_error (principal_tranches 12
                            [Tranche.mk "Senior" 10 0; Tranche.mk "Mezz" 6 0]) 0
               = Some (Tranche.mk "Senior" (10 - 10) 0)) by reflexivity.
  assert (H2 : nth_error (principal_payments 12
                            [Tranche.mk "Senior" 10 0; Tranche.mk "Mezz" 6 0]) 1
               = Some (12 - 10)) by reflexivity.
  assert (H3 : ~ 12 - 10 == 0) by (vm_compute; discriminate).
  split; [exact H1|]. split; [exact H2|]. split; [exact H3|].
  exact (proj1 (sequential_pay 12 _ 0 _ _ H1 H2 H3)).
Defined.

(** C7: in a month's waterfall the interest loop pays the tranches in list
    order (most senior first); tranche i is paid the minimum of its due,
    balance * coupon / 12 on its balance after the loss allocation, and of
    the interest cash not yet paid to more senior tranches.  The loop
    changes no tranche: the principal loop runs on the tranches as the
    loss allocation left them, so a shortfall leaves no trace in the
    state.  The principal pool is the collateral principal cash plus the
    interest cash the interest loop did not pay out. *)
Theorem interest_allocation (cash_int cash_prin losses : Q) (ts : list Tranche.t) :
  let w := run_waterfall cash_int cash_prin losses ts in
  (forall i t,
     nth_error (after_losses w) i = Some t ->
     exists paid,
       nth_error (interest_paid w) i = Some paid /\
       paid == Qmin (Tranche.balance t * Tranche.coupon t / 12)
                 (cash_int - Qsum (firstn i (interest_paid w)))) /\
  List.length (interest_paid w) = List.length (after_losses w) /\
  interest_left w == cash_int - Qsum (interest_paid w) /\
  principal_available w == cash_prin + (cash_int - Qsum (interest_paid w)) /\
  after_losses w = allocate_losses losses ts /\
  (after_principal w, principal_paid w, principal_left w)
  = pay_principal (principal_available w) (after_losses w).
Proof.
  unfold run_waterfall.
  pose proof (pay_interest_nth (allocate_losses losses ts) cash_int) as Hnth.
  pose proof (pay_interest_length (allocate_losses losses ts) cash_int) as Hlen.
  pose proof (pay_interest_left (allocate_losses losses ts) cash_int) as Hleft.
  destruct (pay_interest cash_int (allocate_losses losses ts)) as [ipaid ileft].
  cbn [fst snd] in *.
  destruct (pay_principal (cash_prin + ileft) (allocate_losses losses ts))
    as [[ts2 ppaid] pleft] eqn:E.
  cbn. repeat split; try assumption.
  - rewrite Hleft. reflexivity.
  - now rewrite E.
Qed.

(** ** Invariants of the monthly step *)

Lemma Qdiv12_nonneg (r : Q) : 0 <= r -> 0 <= r / 12.
Proof. intro H. apply Qle_shift_div_l; [reflexivity | lra]. Qed.

(** A well-formed loan stays well-formed and yields non-negative cash and
    loss, when the recovery is a fraction and the monthly prepayment rate
    is not negative. *)
Lemma step_ok (root12 : Q -> Q) (m : Mortgage.t) (cpr cdr recovery : Q) (g : rng)
  (cf : cashflow) (m' : Mortgage.t) (g' : rng) :
  loan_ok m -> 0 <= recovery -> recovery <= 1 -> root12 (1 - cpr) <= 1 ->
  Mortgage.step root12 m cpr cdr recovery g = Ok (cf, m', g') ->
  loan_ok m' /\ 0 <= cf_interest cf /\ 0 <= cf_principal cf /\ 0 <= cf_loss cf.
Proof.
  intros (Hb & Hr & Hp) Hrec0 Hrec1 Hroot. unfold Mortgage.step.
  destruct (negb (Mortgage.alive m) || Qle_bool (Mortgage.balance m) eps).
  { intro H. injection H as <- <- _. cbn. repeat split; try assumption; apply Qle_refl. }
  pose proof (Qdiv12_nonneg _ Hr) as Hr12.
  remember (Mortgage.rate m / 12) as r12 eqn:Er12.
  assert (Hi : 0 <= Mortgage.balance m * r12) by now apply Qmult_le_0_compat.
  unfold pow_twelfth. cbn [random].
  destruct (Qlt_bool (1 - cdr) 0); cbn [one_minus]; [discriminate|].
  destruct (Qlt_bool (g O) (1 - root12 (1 - cdr))).
  - intro H. injection H as <- <- _. cbn. unfold loan_ok. cbn.
    assert (0 <= Mortgage.balance m * recovery) by now apply Qmult_le_0_compat.
    assert (0 <= Mortgage.balance m * (1 - recovery))
      by (apply Qmult_le_0_compat; lra).
    rewrite <- Er12. repeat split; try lra.
  - destruct (Qlt_bool (1 - cpr) 0); cbn [one_minus]; [discriminate|].
    intro H. injection H as <- <- _. unfold loan_ok. cbn.
    set (sched := Qmin (Mortgage.payment m - Mortgage.balance m * r12) (Mortgage.balance m)).
    assert (Hs : 0 <= sched /\ sched <= Mortgage.balance m) by (unfold sched; qmin_lra).
    assert (Hpre : 0 <= (Mortgage.balance m - sched) * (1 - root12 (1 - cpr)))
      by (apply Qmult_le_0_compat; lra).
    set (total := Qmin (Mortgage.balance m)
                    (sched + (Mortgage.balance m - sched) * (1 - root12 (1 - cpr)))).
    assert (Ht : 0 <= total /\ total <= Mortgage.balance m) by (unfold total; qmin_lra).
    assert (Hm : 0 <= total * r12) by (apply Qmult_le_0_compat; lra).
    rewrite <- Er12. repeat split; lra.
Qed.

Lemma step_pool_ok (root12 : Q -> Q) (cpr cdr recovery : Q) (ms : list Mortgage.t) :
  0 <= recovery -> recovery <= 1 -> root12 (1 - cpr) <= 1 ->
  forall ci cp l g ms' ci' cp' l' g',
    Forall loan_ok ms ->
    step_pool root12 cpr cdr recovery ms ci cp l g = Ok (ms', (ci', cp', l'), g') ->
    Forall loan_ok ms' /\ ci <= ci' /\ cp <= cp' /\ l <= l'.
Proof.
  intros Hrec0 Hrec1 Hroot.
  induction ms as [|mt rest IH]; intros ci cp l g ms' ci' cp' l' g' Hms; cbn [step_pool].
  - intro H. injection H as <- <- <- <- _. repeat split; try apply Qle_refl. constructor.
  - inversion Hms as [|? ? Hmt Hrest]; subst.
    destruct (Mortgage.step root12 mt cpr cdr recovery g) as [[[cf mt'] g1]|e] eqn:Es;
      cbn [bind]; [|discriminate].
    destruct (step_ok _ _ _ _ _ _ _ _ _ Hmt Hrec0 Hrec1 Hroot Es) as (Hmt' & Hi & Hp & Hl).
    destruct (step_pool root12 cpr cdr recovery rest _ _ _ g1)
      as [[[rest' [[ci1 cp1] l1]] g2]|e] eqn:Ep; cbn [bind]; [|discriminate].
    intro H. injection H as <- <- <- <- _.
    destruct (IH _ _ _ _ _ _ _ _ _ Hrest Ep) as (Hrest' & Hci & Hcp & Hll).
    split; [now constructor|]. lra.
Qed.

(** ** Invariants of the waterfall *)

Lemma loop_paid_down (visit : list Tranche.t) :
  forall loss,
    Forall nonneg_balance visit -> 0 <= loss ->
    Forall2 paid_down visit (allocate_losses_loop loss visit).
Proof.
  assert (Hrefl : forall l, Forall nonneg_balance l -> Forall2 paid_down l l).
  { induction 1 as [|t l Ht _ IH]; constructor; [|exact IH].
    unfold paid_down, nonneg_balance in *. repeat split; lra. }
  induction visit as [|tr rest IH]; intros loss Hv Hl; cbn [allocate_losses_loop].
  - constructor.
  - inversion Hv as [|? ? Ht Hrest]; subst. unfold nonneg_balance in Ht.
    assert (Hd : paid_down tr
                   (Tranche.set_balance tr
                      (Tranche.balance tr - Qmin (Tranche.balance tr) loss))).
    { unfold paid_down. cbn. repeat split; qmin_lra. }
    destruct (Qle_bool _ eps); constructor; auto.
    apply IH; [exact Hrest | qmin_lra].
Qed.

Lemma pay_interest_left_nonneg (ts : list Tranche.t) :
  forall pool, 0 <= pool -> 0 <= snd (pay_interest pool ts).
Proof.
  induction ts as [|tr rest IH]; intros pool Hp; [exact Hp|].
  rewrite pay_interest_cons. cbn [snd]. apply IH. qmin_lra.
Qed.

Lemma paid_down_no_increase (l l' : list Tranche.t) :
  Forall2 paid_down l l' -> Forall2 no_increase l l'.
Proof. apply Forall2_impl. intros t t' (_ & _ & _ & H). exact H. Qed.

Lemma paid_down_nonneg (l l' : list Tranche.t) :
  Forall2 paid_down l l' -> Forall nonneg_balance l'.
Proof.
  induction 1 as [|t t' l l' (_ & _ & H & _) _ IH]; constructor; assumption.
Qed.

Lemma paid_down_ok (l l' : list Tranche.t) :
  Forall2 paid_down l l' -> Forall tranche_ok l -> Forall tranche_ok l'.
Proof.
  induction 1 as [|t t' l l' (_ & Hc & H & _) _ IH]; intro Hl; constructor;
    inversion Hl as [|? ? [_ Hct] Hrest]; subst; [|now apply IH].
  split; [exact H | now rewrite Hc].
Qed.

Lemma no_increase_trans (l1 l2 : list Tranche.t) :
  Forall2 no_increase l1 l2 ->
  forall l3, Forall2 no_increase l2 l3 -> Forall2 no_increase l1 l3.
Proof.
  induction 1 as [|a b l1 l2 Hab _ IH]; intros l3 H; inversion H; subst; constructor.
  - unfold no_increase in *. lra.
  - now apply IH.
Qed.

Lemma tranche_ok_nonneg (l : list Tranche.t) :
  Forall tranche_ok l -> Forall nonneg_balance l.
Proof. apply Forall_impl. intros t [H _]. exact H. Qed.

(** One month of the waterfall on non-negative cash and losses. *)
Lemma run_waterfall_ok (ci cp l : Q) (ts : list Tranche.t) :
  Forall nonneg_balance ts -> 0 <= ci -> 0 <= cp -> 0 <= l ->
  Forall2 paid_down ts (after_losses (run_waterfall ci cp l ts)) /\
  Forall2 paid_down (after_losses (run_waterfall ci cp l ts))
    (after_principal (run_waterfall ci cp l ts)) /\
  Forall (Qle 0) (principal_paid (run_waterfall ci cp l ts)) /\
  Qsum (interest_paid (run_waterfall ci cp l ts))
  + Qsum (principal_paid (run_waterfall ci cp l ts)) <= ci + cp /\
  (Forall tranche_ok ts -> Forall (Qle 0) (interest_paid (run_waterfall ci cp l ts))).
Proof.
  intros Hts Hci Hcp Hl. unfold run_waterfall, allocate_losses.
  assert (Hloss : Forall2 paid_down ts (allocate_losses l ts)).
  { apply allocate_losses_pointwise, loop_paid_down; [now apply Forall_rev | exact Hl]. }
  fold (allocate_losses l ts).
  pose proof (paid_down_nonneg _ _ Hloss) as Hts1.
  pose proof (pay_interest_left (allocate_losses l ts) ci) as Hleft.
  pose proof (pay_interest_left_nonneg (allocate_losses l ts) ci Hci) as Hleft0.
  pose proof (fun H => proj1 (pay_interest_nonneg (allocate_losses l ts) ci H Hci)) as Hip.
  destruct (pay_interest ci (allocate_losses l ts)) as [ipaid ileft].
  cbn [fst snd] in *.
  assert (Hpool : 0 <= cp + ileft) by lra.
  destruct (pay_principal_nonneg (allocate_losses l ts) _ Hts1 Hpool) as (F & L & D).
  pose proof (pay_principal_left (allocate_losses l ts) (cp + ileft)) as Hpl.
  unfold principal_payments, principal_leftover, principal_tranches in *.
  destruct (pay_principal (cp + ileft) (allocate_losses l ts)) as [[ts2 ppaid] pleft].
  cbn [fst snd] in *.
  cbn [after_losses after_principal principal_paid interest_paid].
  split; [exact Hloss|]. split; [exact D|]. split; [exact F|].
  split; [lra|].
  intro Hok. apply Hip. apply (paid_down_ok _ _ Hloss Hok).
Qed.

(** ** Invariants of a path *)

Lemma paid_down_refl (l : list Tranche.t) :
  Forall nonneg_balance l -> Forall2 paid_down l l.
Proof.
  induction 1 as [|t l Ht _ IH]; constructor; [|exact IH].
  unfold paid_down, nonneg_balance in *. repeat split; lra.
Qed.

Lemma paid_down_trans (l1 l2 : list Tranche.t) :
  Forall2 paid_down l1 l2 ->
  forall l3, Forall2 paid_down l2 l3 -> Forall2 paid_down l1 l3.
Proof.
  induction 1 as [|a b l1 l2 (Hn & Hc & H0 & Hle) _ IH]; intros l3 H;
    inversion H as [|? c ? ? (Hn' & Hc' & H0' & Hle') Hrest]; subst; constructor.
  - unfold paid_down. repeat split; [congruence | congruence | exact H0' | lra].
  - now apply IH.
Qed.

Lemma copy_id (ts : list Tranche.t) : map Tranche.copy ts = ts.
Proof.
  induction ts as [|[n b c] ts IH]; [reflexivity|]. cbn [map]. now rewrite IH.
Qed.

Section PathInvariants.

Variable root12 : Q -> Q.
Variables cpr cdr recovery monthly_disc : Q.
Hypothesis recovery_nonneg : 0 <= recovery.
Hypothesis recovery_le_1 : recovery <= 1.
Hypothesis prepay_nonneg : root12 (1 - cpr) <= 1.

(** What a successful month is made of. *)
Lemma month_body_inv (month : Z) (st st' : path_state) :
  month_body root12 cpr cdr recovery monthly_disc month st = Ok st' ->
  exists ms' ci cp l g',
    step_pool root12 cpr cdr recovery (mortgages st) 0 0 0 (gen st)
    = Ok (ms', (ci, cp, l), g') /\
    tranches st' = after_principal (run_waterfall ci cp l (tranches st)) /\
    mortgages st' = ms'.
Proof.
  unfold month_body.
  destruct (step_pool root12 cpr cdr recovery (mortgages st) 0 0 0 (gen st))
    as [[[ms' [[ci cp] l]] g']|e]; cbn [bind]; [|discriminate].
  destruct (float_pow_int (1 + monthly_disc) month) as [df|e]; cbn [bind];
    [|discriminate].
  destruct (discount df _ _ _ (pv st)) as [pv'|e]; cbn [bind]; [|discriminate].
  intro H. injection H as <-. exists ms', ci, cp, l, g'. now repeat split.
Qed.

Lemma month_body_ok (month : Z) (st st' : path_state) :
  Forall loan_ok (mortgages st) -> Forall nonneg_balance (tranches st) ->
  month_body root12 cpr cdr recovery monthly_disc month st = Ok st' ->
  Forall loan_ok (mortgages st') /\ Forall2 paid_down (tranches st) (tranches st').
Proof.
  intros Hms Hts Hb.
  destruct (month_body_inv _ _ _ Hb) as (ms' & ci & cp & l & g' & Hp & -> & ->).
  destruct (step_pool_ok root12 cpr cdr recovery _
              recovery_nonneg recovery_le_1 prepay_nonneg
              _ _ _ _ _ _ _ _ _ Hms Hp) as (Hms' & Hci & Hcp & Hl).
  destruct (run_waterfall_ok ci cp l _ Hts Hci Hcp Hl) as (D1 & D2 & _).
  split; [exact Hms' | exact (paid_down_trans _ _ D1 _ D2)].
Qed.

Lemma months_loop_ok (todo : nat) :
  forall month st st',
    Forall loan_ok (mortgages st) -> Forall nonneg_balance (tranches st) ->
    months_loop root12 cpr cdr recovery monthly_disc todo month st = Ok st' ->
    Forall loan_ok (mortgages st') /\ Forall2 paid_down (tranches st) (tranches st').
Proof.
  induction todo as [|todo IH]; intros month st st' Hms Hts; cbn [months_loop].
  - intro H. injection H as <-. split; [exact Hms | now apply paid_down_refl].
  - destruct (negb (existsb Mortgage.alive (mortgages st))).
    + intro H. injection H as <-. split; [exact Hms | now apply paid_down_refl].
    + destruct (month_body root12 cpr cdr recovery monthly_disc month st)
        as [st1|e] eqn:Eb; cbn [bind]; [|discriminate].
      destruct (month_body_ok _ _ _ Hms Hts Eb) as (Hms1 & D1).
      intro Hl. destruct (IH _ _ _ Hms1 (paid_down_nonneg _ _ D1) Hl) as (Hms' & D').
      split; [exact Hms' | exact (paid_down_trans _ _ D1 _ D')].
Qed.

End PathInvariants.

(** Running [j + k] months is running [j] months and then [k] more: the
    state after [j] iterations of a longer run is the result of
    [months_loop j]. *)
Lemma months_loop_split (root12 : Q -> Q) (cpr cdr recovery monthly_disc : Q)
  (j k : nat) :
  forall month st,
    months_loop root12 cpr cdr recovery monthly_disc (j + k) month st
    = (st1 <- months_loop root12 cpr cdr recovery monthly_disc j month st ;;
       months_loop root12 cpr cdr recovery monthly_disc k (month + Z.of_nat j) st1).
Proof.
  induction j as [|j IH]; intros month st.
  - cbn [months_loop bind Nat.add]. now rewrite Z.add_0_r.
  - replace (month + Z.of_nat (S j))%Z with (month + 1 + Z.of_nat j)%Z by lia.
    cbn [months_loop Nat.add].
    destruct (negb (existsb Mortgage.alive (mortgages st))) eqn:E.
    + cbn [bind]. destruct k; cbn [months_loop]; [reflexivity|]. now rewrite E.
    + destruct (month_body root12 cpr cdr recovery monthly_disc month st) as [st1|e];
        cbn [bind]; [|reflexivity].
      apply IH.
Qed.

(** C4: along a path started from tranches with non-negative balances and
    a pool of well-formed loans, with a recovery fraction in [0, 1] and a
    monthly prepayment rate that is not negative, in every month the loss
    allocation and the principal allocation each leave every tranche
    balance at or below what it was (the interest allocation changes no
    tranche), so every balance after the month is at most the balance
    before it. *)
Theorem tranche_balances_never_increase (root12 : Q -> Q)
  (cpr cdr recovery disc_rate : Q) (tranche_defs : list Tranche.t)
  (mortgages0 : list Mortgage.t) (g0 : rng) (j : nat) (month : Z)
  (st st' : path_state) :
  Forall nonneg_balance tranche_defs -> Forall loan_ok mortgages0 ->
  0 <= recovery -> recovery <= 1 -> root12 (1 - cpr) <= 1 ->
  months_loop root12 cpr cdr recovery (disc_rate / 12) j 1
    (path_start tranche_defs mortgages0 g0) = Ok st ->
  month_body root12 cpr cdr recovery (disc_rate / 12) month st = Ok st' ->
  exists ms' ci cp l g',
    step_pool root12 cpr cdr recovery (mortgages st) 0 0 0 (gen st)
    = Ok (ms', (ci, cp, l), g') /\
    Forall2 no_increase (tranches st)
      (after_losses (run_waterfall ci cp l (tranches st))) /\
    Forall2 no_increase (after_losses (run_waterfall ci cp l (tranches st)))
      (after_principal (run_waterfall ci cp l (tranches st))) /\
    tranches st' = after_principal (run_waterfall ci cp l (tranches st)) /\
    Forall2 no_increase (tranches st) (tranches st').
Proof.
  intros Hts Hms Hr0 Hr1 Hpre Hloop Hbody.
  destruct (months_loop_ok root12 cpr cdr recovery (disc_rate / 12) Hr0 Hr1 Hpre
              j 1 (path_start tranche_defs mortgages0 g0) st Hms)
    as (Hms1 & D); [| exact Hloop |].
  { unfold path_start. cbn [tranches]. now rewrite copy_id. }
  pose proof (paid_down_nonneg _ _ D) as Hts1.
  destruct (month_body_inv _ _ _ _ _ _ _ _ Hbody)
    as (ms' & ci & cp & l & g' & Hp & Et & _).
  destruct (step_pool_ok root12 cpr cdr recovery _ Hr0 Hr1 Hpre
              _ _ _ _ _ _ _ _ _ Hms1 Hp) as (_ & Hci & Hcp & Hl).
  destruct (run_waterfall_ok ci cp l _ Hts1 Hci Hcp Hl) as (D1 & D2 & _).
  exists ms', ci, cp, l, g'.
  split; [exact Hp|].
  split; [now apply paid_down_no_increase|].
  split; [now apply paid_down_no_increase|].
  split; [exact Et|].
  rewrite Et. apply paid_down_no_increase. exact (paid_down_trans _ _ D1 _ D2).
Qed.


(** ** Amortization in exact arithmetic

    The lemmas of this part are about the arithmetic of the schedule:
    they hold of the exact amounts of the main embedding, in which the
    payment and the balances are never rounded. *)

Lemma schedule_algebra (P r12 xn xk B pay : Q) :
  pay * (xn - 1) == P * r12 * xn ->
  B * (xn - 1) == P * (xn - xk) ->
  (B - (pay - B * r12)) * (xn - 1) == P * (xn - xk * (1 + r12)).
Proof.
  intros Hpay HB.
  setoid_replace ((B - (pay - B * r12)) * (xn - 1))
    with (B * (xn - 1) * (1 + r12) - pay * (xn - 1)) by ring.
  rewrite Hpay, HB. ring.
Qed.

Lemma nonneg_of_mul (a y : Q) : 0 < y -> 0 <= a * y -> 0 <= a.
Proof.
  intros Hy Ha. destruct (Qlt_le_dec a 0) as [Hneg|Hpos]; [exfalso|exact Hpos].
  assert (H : 0 < (- a) * y) by (apply Qmult_lt_0_compat; lra).
  setoid_replace ((- a) * y) with (- (a * y)) in H by ring. lra.
Qed.

Lemma zero_of_mul (a y : Q) : 0 < y -> a * y == 0 -> a == 0.
Proof.
  intros Hy Ha. apply Qmult_integral in Ha. destruct Ha as [Ha|Ha]; [exact Ha|lra].
Qed.

Section Amortization.

Variable root12 : Q -> Q.
Hypothesis root12_one : root12 1 == 1.

Variables principal r : Q.
Variable n : Z.
Hypothesis principal_pos : 0 < principal.
Hypothesis rate_pos : 0 < r.
Hypothesis term_pos : (0 < n)%Z.
Hypothesis term_fits : inject_Z n < overflow_threshold.
Hypothesis no_underflow : underflow_threshold < (1 + r / 12) ^ (- n).

Local Notation "'x'" := (monthly_factor r).

Lemma monthly_factor_gt_1 : 1 < x.
Proof.
  unfold monthly_factor. assert (0 < r / 12) by (apply Qlt_shift_div_l; lra). lra.
Qed.

Lemma power_succ (k : nat) : x ^ Z.of_nat (S k) == x ^ Z.of_nat k * x.
Proof.
  rewrite Nat2Z.inj_succ. unfold Z.succ.
  rewrite Qpower_plus; [reflexivity|].
  pose proof monthly_factor_gt_1. lra.
Qed.

Lemma power_le_term (k : nat) : (Z.of_nat k <= n)%Z -> x ^ Z.of_nat k <= x ^ n.
Proof.
  intro H. apply Qpower_le_compat_l; [exact H|].
  pose proof monthly_factor_gt_1. lra.
Qed.

Lemma term_factor_gt_1 : 1 < x ^ n.
Proof. apply Qpower_1_lt; [apply monthly_factor_gt_1 | exact term_pos]. Qed.

(** The loan that [create] returns opens its schedule. *)
Lemma create_on_schedule :
  exists pay,
    Mortgage.create principal r n = Ok (Mortgage.mk principal r n n pay true) /\
    on_schedule principal r n 0 (Mortgage.mk principal r n n pay true).
Proof.
  destruct (create_payment principal r n rate_pos term_pos term_fits)
    as (p & pay & _ & _ & _ & Hp & Hc & Hpay).
  exists pay. split; [exact Hc|]. right. cbn.
  rewrite (Hp no_underflow) in Hpay.
  fold (monthly_factor r) in Hpay |- *. pose proof term_factor_gt_1 as Hxn.
  repeat split; try lia.
  rewrite Hpay, Qpower_opp. field. split; lra.
Qed.

(** One month on schedule, without default or prepayment. *)
Lemma step_on_schedule (recovery : Q) (k : nat) (m : Mortgage.t) (g : rng) :
  on_schedule principal r n k m -> (forall i, 0 <= g i) ->
  exists cf m' g',
    Mortgage.step root12 m 0 0 recovery g = Ok (cf, m', g') /\
    (forall i, 0 <= g' i) /\
    cf_principal cf == Mortgage.balance m - Mortgage.balance m' /\
    on_schedule principal r n (S k) m'.
Proof.
  intros Hs Hg.
  assert (Hinert : 0 <= Mortgage.balance m -> Mortgage.balance m <= eps ->
                   exists cf m' g',
                     Mortgage.step root12 m 0 0 recovery g = Ok (cf, m', g') /\
                     (forall i, 0 <= g' i) /\
                     cf_principal cf == Mortgage.balance m - Mortgage.balance m' /\
                     on_schedule principal r n (S k) m').
  { intros H0 H1. exists (mkCashflow 0 0 0), m, g.
    split; [apply step_inert; now right|].
    split; [exact Hg|]. split; [cbn; ring | now left]. }
  destruct Hs as [[H0 H1]|(Ha & Hk & Hrem & Hrate & Hpay & Hbal)];
    [now apply Hinert|].
  fold (monthly_factor r) in Hpay, Hbal.
  pose proof term_factor_gt_1 as Hxn.
  pose proof (power_le_term k ltac:(lia)) as Hxk.
  assert (HB0 : 0 <= Mortgage.balance m).
  { apply (nonneg_of_mul _ (x ^ n - 1)); [lra|]. rewrite Hbal.
    apply Qmult_le_0_compat; lra. }
  destruct (Qlt_le_dec eps (Mortgage.balance m)) as [Hbig|Hsmall];
    [|now apply Hinert].
  (* the live step *)
  pose proof (schedule_algebra _ _ _ _ _ _ Hpay Hbal) as Hnext.
  fold (monthly_factor r) in Hnext. rewrite <- power_succ in Hnext.
  pose proof (power_le_term (S k) ltac:(lia)) as Hxk1.
  set (B := Mortgage.balance m) in *.
  set (interest := B * (r / 12)) in *.
  assert (Hnext0 : 0 <= B - (Mortgage.payment m - interest)).
  { apply (nonneg_of_mul _ (x ^ n - 1)); [lra|]. rewrite Hnext.
    apply Qmult_le_0_compat; lra. }
  unfold Mortgage.step. rewrite Ha.
  apply Qle_bool_false in Hbig. fold B. rewrite Hbig. cbn [negb orb].
  unfold pow_twelfth. change (Qlt_bool (1 - 0) 0) with false. cbn iota.
  change (1 - 0) with 1. cbn [one_minus random].
  assert (Hmd : Qlt_bool (g O) (1 - root12 1) = false).
  { apply Qlt_bool_false. specialize (Hg O). lra. }
  rewrite Hmd, Hrate. fold interest.
  set (sched := Qmin (Mortgage.payment m - interest) B).
  assert (Hsched : sched == Mortgage.payment m - interest) by (unfold sched; qmin_lra).
  set (prepay := (B - sched) * (1 - root12 1)).
  assert (Hprepay : prepay == 0).
  { unfold prepay. setoid_replace (1 - root12 1) with 0 by lra. ring. }
  set (total := Qmin B (sched + prepay)).
  assert (Htotal : total == Mortgage.payment m - interest)
    by (unfold total; qmin_lra).
  do 3 eexists. split; [reflexivity|]. cbn.
  split; [intro i; apply Hg|]. split; [ring|].
  assert (Hnew : (B - total) * (x ^ n - 1) == principal * (x ^ n - x ^ Z.of_nat (S k))).
  { rewrite Htotal. exact Hnext. }
  assert (Hnew0 : 0 <= B - total) by lra.
  destruct (Mortgage.remaining m - 1 <=? 0)%Z eqn:Erem; cbn [orb].
  - left. cbn. split; [exact Hnew0|].
    apply Z.leb_le in Erem.
    assert (En : Z.of_nat (S k) = n) by lia.
    rewrite En in Hnew.
    assert (Hz : B - total == 0).
    { apply (zero_of_mul _ (x ^ n - 1)); [lra|]. rewrite Hnew. ring. }
    rewrite Hz. unfold eps. lra.
  - apply Z.leb_gt in Erem.
    destruct (Qle_bool (B - total) eps) eqn:Esm.
    + left. cbn. apply Qle_bool_iff in Esm. split; assumption.
    + right. cbn. fold (monthly_factor r). repeat split; try assumption; lia.
Qed.

(** [k] months on schedule. *)
Lemma step_months_on_schedule (recovery : Q) (j : nat) :
  forall k m g,
    on_schedule principal r n k m -> (forall i, 0 <= g i) ->
    exists cfs m' g',
      step_months root12 j m 0 0 recovery g = Ok (cfs, m', g') /\
      Qsum (map cf_principal cfs) == Mortgage.balance m - Mortgage.balance m' /\
      on_schedule principal r n (j + k) m'.
Proof.
  induction j as [|j IH]; intros k m g Hs Hg.
  - exists [], m, g. split; [reflexivity|]. split; [cbn; ring | exact Hs].
  - destruct (step_on_schedule recovery k m g Hs Hg)
      as (cf & m1 & g1 & E1 & Hg1 & Hp1 & Hs1).
    destruct (IH (S k) m1 g1 Hs1 Hg1) as (cfs & m' & g' & E2 & Hp2 & Hs2).
    exists (cf :: cfs), m', g'. cbn [step_months]. rewrite E1. cbn [bind].
    rewrite E2. cbn [bind]. split; [reflexivity|].
    split; [cbn [map]; rewrite Qsum_cons, Hp1, Hp2; ring|].
    now rewrite <- plus_n_Sm in Hs2.
Qed.

End Amortization.

(** In exact arithmetic the schedule closes: after the term the balance
    is within the tolerance of zero and the principal cashflows add up
    to the principal within the tolerance.  The program's floats do not
    share this property: the rounding of the payment and of the balances
    leaves a residue, as the binary64 runs further down show. *)
Lemma exact_schedule_closes (root12 : Q -> Q) (principal r : Q) (n : Z)
  (recovery : Q) (g : rng) :
  0 < principal -> 0 < r -> (0 < n)%Z ->
  inject_Z n < overflow_threshold -> underflow_threshold < (1 + r / 12) ^ (- n) ->
  root12 1 == 1 -> (forall i, 0 <= g i) ->
  exists m cfs m' g',
    Mortgage.create principal r n = Ok m /\
    step_months root12 (Z.to_nat n) m 0 0 recovery g = Ok (cfs, m', g') /\
    Qabs (Mortgage.balance m') <= eps /\
    Qabs (Qsum (map cf_principal cfs) - principal) <= eps.
Proof.
  intros HP Hr Hn Hfit Hunder Hroot Hg.
  destruct (create_on_schedule principal r n Hr Hn Hfit Hunder) as (pay & Hc & Hs).
  destruct (step_months_on_schedule root12 Hroot principal r n HP Hr Hn
              recovery (Z.to_nat n) 0 _ g Hs Hg)
    as (cfs & m' & g' & Hrun & Hsum & Hend).
  exists (Mortgage.mk principal r n n pay true), cfs, m', g'.
  split; [exact Hc|]. split; [exact Hrun|].
  cbn [Mortgage.balance] in Hsum.
  destruct Hend as [[H0 H1]|(_ & Hk & _)]; [|lia].
  split; apply Qabs_Qle_condition; split; lra.
Qed.

(** ** Loans that [create] returns *)

(** What [create] has computed when it returns a loan. *)
Lemma create_inv (principal r : Q) (n : Z) (m : Mortgage.t) :
  Mortgage.create principal r n = Ok m ->
  exists p,
    float_pow_int (1 + r / 12) (- n) = Ok p /\
    (p = (1 + r / 12) ^ (- n) \/ p = 0) /\
    ~ 1 - p == 0 /\
    m = Mortgage.mk principal r n n (Mortgage.payment m) true /\
    Mortgage.payment m = principal * (r / 12) / (1 - p).
Proof.
  unfold Mortgage.create.
  destruct (float_pow_int (1 + r / 12) (- n)) as [p|e] eqn:Ep; cbn [bind];
    [|discriminate].
  unfold float_div. destruct (Qeq_bool (1 - p) 0) eqn:E; [discriminate|].
  cbn [bind]. intro H. injection H as <-.
  exists p. split; [reflexivity|]. split.
  - destruct (float_pow_int_value _ _ _ Ep) as [_ [[_ ->]|[_ ->]]];
      [now left | now right].
  - split; [now apply Qeq_bool_false|]. now split.
Qed.

(** The payment of a loan created at a positive rate over a positive term
    is the month's interest on the principal divided by a number in
    (0, 1]. *)
Lemma create_payment_covers (principal r : Q) (n : Z) (m : Mortgage.t) :
  0 <= principal -> 0 < r -> (0 < n)%Z ->
  Mortgage.create principal r n = Ok m ->
  m = Mortgage.mk principal r n n (Mortgage.payment m) true /\
  principal * (r / 12) <= Mortgage.payment m.
Proof.
  intros HP Hr Hn Hc.
  destruct (create_inv _ _ _ _ Hc) as (p & _ & Hp & _ & Hm & Hpay).
  split; [exact Hm|]. rewrite Hpay.
  assert (Hr12 : 0 < r / 12) by (apply Qlt_shift_div_l; lra).
  assert (Hi : 0 <= principal * (r / 12)) by (apply Qmult_le_0_compat; lra).
  assert (Hb : 1 < 1 + r / 12) by lra.
  destruct (power_fraction _ n Hb Hn) as [Hp0 Hp1].
  assert (Hd : 0 < 1 - p /\ 1 - p <= 1) by (destruct Hp as [->| ->]; lra).
  destruct Hd as [Hd0 Hd1].
  apply Qle_shift_div_l; [exact Hd0|].
  setoid_replace (principal * (r / 12)) with (principal * (r / 12) * 1) at 2 by ring.
  apply Qmult_le_compat_nonneg; split; lra.
Qed.

(** Loans that [create] builds from positive arguments are well-formed. *)
Lemma create_loan_ok (principal r : Q) (n : Z) (m : Mortgage.t) :
  0 < principal -> 0 < r -> (0 < n)%Z ->
  Mortgage.create principal r n = Ok m -> loan_ok m.
Proof.
  intros HP Hr Hn Hc.
  destruct (create_payment_covers principal r n m) as (Hm & Hpay);
    [lra | exact Hr | exact Hn | exact Hc |].
  rewrite Hm. unfold loan_ok. cbn [Mortgage.balance Mortgage.rate Mortgage.payment].
  split; [lra|]. split; [lra | exact Hpay].
Qed.

Lemma tranche_balances_never_increase_witness :
  Forall nonneg_balance tranche_defs /\ Forall loan_ok small_pool /\
  0 <= (1 # 2) /\ (1 # 2) <= 1 /\ 1 - 0 <= 1 /\
  exists st',
    month_body (fun x => x) 0 (1 # 2) (1 # 2) (12 / 12) 1
      (path_start tranche_defs small_pool draws_075) = Ok st' /\
    Forall2 no_increase (tranches (path_start tranche_defs small_pool draws_075))
      (tranches st').
Proof.
  assert (H1 : Forall nonneg_balance tranche_defs)
    by (repeat constructor; vm_compute; discriminate).
  assert (H2 : Forall loan_ok small_pool)
    by (repeat constructor; vm_compute; discriminate).
  assert (H3 : 0 <= (1 # 2)) by (vm_compute; discriminate).
  assert (H4 : (1 # 2) <= 1) by (vm_compute; discriminate).
  assert (H5 : (fun x : Q => x) (1 - 0) <= 1) by (vm_compute; discriminate).
  split; [exact H1|]. split; [exact H2|]. split; [exact H3|]. split; [exact H4|].
  split; [exact H5|].
  destruct (month_body (fun x => x) 0 (1 # 2) (1 # 2) (12 / 12) 1
              (path_start tranche_defs small_pool draws_075)) as [st'|e] eqn:E.
  - exists st'. split; [reflexivity|].
    destruct (tranche_balances_never_increase (fun x => x) 0 (1 # 2) (1 # 2) 12
                tranche_defs small_pool draws_075 0 1
                (path_start tranche_defs small_pool draws_075) st'
                H1 H2 H3 H4 H5 eq_refl E) as (? & ? & ? & ? & ? & _ & _ & _ & _ & H).
    exact H.
  - exfalso. vm_compute in E. discriminate E.
Defined.


(** * Further properties of the code *)

(** ** The monthly step, case by case *)

Lemma is_inert_true (m : Mortgage.t) : is_inert m = true <-> inert m.
Proof.
  unfold is_inert, inert. rewrite orb_true_iff, negb_true_iff, Qle_bool_iff.
  reflexivity.
Qed.

Lemma pow_twelfth_real (root12 : Q -> Q) (c : Q) :
  c <= 1 -> pow_twelfth root12 (1 - c) = Real (root12 (1 - c)).
Proof.
  intro H. unfold pow_twelfth.
  assert (E : Qlt_bool (1 - c) 0 = false) by (apply Qlt_bool_false; lra).
  now rewrite E.
Qed.

Lemma pow_twelfth_complex (root12 : Q -> Q) (c : Q) :
  1 < c -> pow_twelfth root12 (1 - c) = Complex.
Proof.
  intro H. unfold pow_twelfth.
  assert (E : Qlt_bool (1 - c) 0 = true) by (apply Qlt_bool_iff; lra).
  now rewrite E.
Qed.

Lemma default_fires_iff (root12 : Q -> Q) (cdr : Q) (g : rng) :
  cdr <= 1 ->
  (default_fires root12 cdr g <-> Qlt_bool (g O) (1 - root12 (1 - cdr)) = true).
Proof.
  intro H. unfold default_fires. rewrite (pow_twelfth_real _ _ H).
  cbn [one_minus random fst]. symmetry. apply Qlt_bool_iff.
Qed.

(** The step of a loan that is not inert, when the default trial does not
    fire and CPR is at most 1. *)
Lemma step_live (root12 : Q -> Q) (m : Mortgage.t) (cpr cdr recovery : Q) (g : rng) :
  is_inert m = false -> cdr <= 1 -> ~ default_fires root12 cdr g -> cpr <= 1 ->
  Mortgage.step root12 m cpr cdr recovery g
  = let interest := Mortgage.balance m * (Mortgage.rate m / 12) in
    let scheduled := Qmin (Mortgage.payment m - interest) (Mortgage.balance m) in
    let total :=
      Qmin (Mortgage.balance m)
        (scheduled + (Mortgage.balance m - scheduled) * (1 - root12 (1 - cpr))) in
    Ok (mkCashflow interest total 0,
        Mortgage.mk (Mortgage.balance m - total) (Mortgage.rate m) (Mortgage.term m)
          (Mortgage.remaining m - 1) (Mortgage.payment m)
          (if (Mortgage.remaining m - 1 <=? 0)%Z
              || Qle_bool (Mortgage.balance m - total) eps
           then false else Mortgage.alive m),
        snd (random g)).
Proof.
  intros Hi Hcdr Hno Hcpr. unfold Mortgage.step. fold (is_inert m). rewrite Hi.
  rewrite (pow_twelfth_real _ _ Hcdr), (pow_twelfth_real _ _ Hcpr).
  cbn [one_minus random snd].
  destruct (Qlt_bool (g O) (1 - root12 (1 - cdr))) eqn:E; [|reflexivity].
  exfalso. apply Hno. now apply default_fires_iff.
Qed.

Lemma step_balance (root12 : Q -> Q) (m : Mortgage.t)
  (cpr cdr recovery : Q) (g : rng) (cf : cashflow) (m' : Mortgage.t) (g' : rng) :
  Mortgage.step root12 m cpr cdr recovery g = Ok (cf, m', g') ->
  Mortgage.balance m == Mortgage.balance m' + cf_principal cf + cf_loss cf.
Proof.
  unfold Mortgage.step.
  destruct (negb (Mortgage.alive m) || Qle_bool (Mortgage.balance m) eps).
  { intro H. injection H as <- <- _. cbn. ring. }
  destruct (one_minus (pow_twelfth root12 (1 - cdr))) as [md|]; [|discriminate].
  cbn [random].
  destruct (Qlt_bool (g O) md).
  { intro H. injection H as <- <- _. cbn. ring. }
  destruct (one_minus (pow_twelfth root12 (1 - cpr))) as [mp|]; [|discriminate].
  intro H. injection H as <- <- _. cbn. ring.
Qed.

(** The generator after a step: one draw further, unless the loan was
    inert. *)
Lemma step_generator (root12 : Q -> Q) (m : Mortgage.t)
  (cpr cdr recovery : Q) (g : rng) (cf : cashflow) (m' : Mortgage.t) (g' : rng) :
  Mortgage.step root12 m cpr cdr recovery g = Ok (cf, m', g') ->
  g' = if is_inert m then g else snd (random g).
Proof.
  unfold Mortgage.step. fold (is_inert m).
  destruct (is_inert m).
  { intro H. now injection H as _ _ <-. }
  destruct (one_minus (pow_twelfth root12 (1 - cdr))) as [md|]; [|discriminate].
  cbn [random snd].
  destruct (Qlt_bool (g O) md).
  { intro H. now injection H as _ _ <-. }
  destruct (one_minus (pow_twelfth root12 (1 - cpr))) as [mp|]; [|discriminate].
  intro H. now injection H as _ _ <-.
Qed.

(** X1: whatever a step returns, the balance the loan had is the balance
    it keeps plus the principal cash and the credit loss of the month:
    inert, defaulting or amortizing, nothing is created or lost.  The
    step never touches the note rate, the original term or the level
    payment. *)
Theorem step_conserves_balance (root12 : Q -> Q) (m : Mortgage.t)
  (cpr cdr recovery : Q) (g : rng) (cf : cashflow) (m' : Mortgage.t) (g' : rng) :
  Mortgage.step root12 m cpr cdr recovery g = Ok (cf, m', g') ->
  Mortgage.balance m == Mortgage.balance m' + cf_principal cf + cf_loss cf /\
  Mortgage.rate m' = Mortgage.rate m /\ Mortgage.term m' = Mortgage.term m /\
  Mortgage.payment m' = Mortgage.payment m.
Proof.
  intro H. split; [exact (step_balance _ _ _ _ _ _ _ _ _ H)|].
  revert H. unfold Mortgage.step.
  destruct (negb (Mortgage.alive m) || Qle_bool (Mortgage.balance m) eps).
  { intro H. injection H as _ <- _. now repeat split. }
  destruct (one_minus (pow_twelfth root12 (1 - cdr))) as [md|]; [|discriminate].
  cbn [random].
  destruct (Qlt_bool (g O) md).
  { intro H. injection H as _ <- _. now repeat split. }
  destruct (one_minus (pow_twelfth root12 (1 - cpr))) as [mp|]; [|discriminate].
  intro H. injection H as _ <- _. now repeat split.
Qed.

Lemma step_conserves_balance_witness :
  exists cf m' g',
    Mortgage.step (fun x => x) live_loan 0 (1 # 2) (1 # 4) draws_075 = Ok (cf, m', g') /\
    Mortgage.balance live_loan == Mortgage.balance m' + cf_principal cf + cf_loss cf.
Proof.
  destruct (Mortgage.step (fun x => x) live_loan 0 (1 # 2) (1 # 4) draws_075)
    as [[[cf m'] g']|e] eqn:E.
  - exists cf, m', g'. split; [reflexivity|].
    exact (proj1 (step_conserves_balance _ _ _ _ _ _ _ _ _ E)).
  - exfalso. vm_compute in E. discriminate E.
Defined.

(** X2: a step on a loan that is not inert raises exactly when CDR exceeds
    1 (the monthly default probability is then a complex number and the
    comparison with the draw fails), or when the default trial does not
    fire and CPR exceeds 1 (the principal is then compared with a complex
    number); what is raised is always a [TypeError]. *)
Theorem step_raises_iff (root12 : Q -> Q) (m : Mortgage.t) (cpr cdr recovery : Q)
  (g : rng) :
  is_inert m = false ->
  ((exists e, Mortgage.step root12 m cpr cdr recovery g = Raise e)
   <-> (1 < cdr \/ (~ default_fires root12 cdr g /\ 1 < cpr))) /\
  (forall e, Mortgage.step root12 m cpr cdr recovery g = Raise e -> e = TypeError).
Proof.
  intro Hi.
  destruct (Qlt_le_dec 1 cdr) as [Hcdr|Hcdr].
  - assert (E : Mortgage.step root12 m cpr cdr recovery g = Raise TypeError).
    { unfold Mortgage.step. fold (is_inert m).
      rewrite Hi, (pow_twelfth_complex _ _ Hcdr). reflexivity. }
    rewrite E. split.
    + split; [intros _; now left | intros _; now exists TypeError].
    + intros e H. now injection H as <-.
  - destruct (Qlt_bool (g O) (1 - root12 (1 - cdr))) eqn:Ef.
    + assert (Hf : default_fires root12 cdr g) by now apply default_fires_iff.
      assert (E : exists r, Mortgage.step root12 m cpr cdr recovery g = Ok r).
      { unfold Mortgage.step. fold (is_inert m).
        rewrite Hi, (pow_twelfth_real _ _ Hcdr). cbn [one_minus random].
        rewrite Ef. eexists. reflexivity. }
      destruct E as [r E]. rewrite E. split.
      * split; [intros [e He]; discriminate He | intros [H|[H _]]; [lra|contradiction]].
      * intros e H. discriminate H.
    + assert (Hf : ~ default_fires root12 cdr g).
      { intro H. apply default_fires_iff in H; [congruence | exact Hcdr]. }
      destruct (Qlt_le_dec 1 cpr) as [Hcpr|Hcpr].
      * assert (E : Mortgage.step root12 m cpr cdr recovery g = Raise TypeError).
        { unfold Mortgage.step. fold (is_inert m).
          rewrite Hi, (pow_twelfth_real _ _ Hcdr), (pow_twelfth_complex _ _ Hcpr).
          cbn [one_minus random]. rewrite Ef. reflexivity. }
        rewrite E. split.
        -- split; [intros _; right; now split | intros _; now exists TypeError].
        -- intros e H. now injection H as <-.
      * rewrite (step_live _ _ _ _ _ _ Hi Hcdr Hf Hcpr). cbn zeta. split.
        -- split; [intros [e He]; discriminate He | intros [H|[_ H]]; lra].
        -- intros e H. discriminate H.
Qed.

Lemma step_raises_iff_witness :
  is_inert live_loan = false /\
  exists e, Mortgage.step (fun x => x) live_loan 0 2 (1 # 4) draws_075 = Raise e.
Proof.
  assert (H : is_inert live_loan = false) by reflexivity.
  split; [exact H|].
  apply (proj1 (step_raises_iff (fun x => x) live_loan 0 2 (1 # 4) draws_075 H)).
  left. reflexivity.
Defined.

(** X3: with a monthly prepayment rate of zero, a step on a loan that is
    not inert and does not default collects the month's interest,
    balance * rate / 12, books no loss and counts one month off the
    remaining term.  While the level payment less the interest is within
    the balance, interest and principal together are exactly the level
    payment; otherwise the principal is the whole balance and the loan
    ends with balance 0, not alive. *)
Theorem step_level_payment (root12 : Q -> Q) (m : Mortgage.t) (cpr cdr recovery : Q)
  (g : rng) :
  is_inert m = false -> cdr <= 1 -> ~ default_fires root12 cdr g ->
  cpr <= 1 -> root12 (1 - cpr) == 1 ->
  exists cf m',
    Mortgage.step root12 m cpr cdr recovery g = Ok (cf, m', snd (random g)) /\
    cf_interest cf = Mortgage.balance m * (Mortgage.rate m / 12) /\
    cf_loss cf = 0 /\
    Mortgage.remaining m' = (Mortgage.remaining m - 1)%Z /\
    (Mortgage.payment m - cf_interest cf <= Mortgage.balance m ->
     cf_interest cf + cf_principal cf == Mortgage.payment m) /\
    (Mortgage.balance m <= Mortgage.payment m - cf_interest cf ->
     cf_principal cf == Mortgage.balance m /\
     Mortgage.balance m' == 0 /\ Mortgage.alive m' = false).
Proof.
  intros Hi Hcdr Hno Hcpr Hroot.
  rewrite (step_live _ _ _ _ _ _ Hi Hcdr Hno Hcpr). cbn zeta.
  do 2 eexists. split; [reflexivity|]. cbn [cf_interest cf_loss cf_principal
    Mortgage.remaining Mortgage.balance Mortgage.alive].
  split; [reflexivity|]. split; [reflexivity|]. split; [reflexivity|].
  set (B := Mortgage.balance m).
  set (I := B * (Mortgage.rate m / 12)).
  set (sched := Qmin (Mortgage.payment m - I) B).
  assert (Hp : (B - sched) * (1 - root12 (1 - cpr)) == 0).
  { setoid_replace (1 - root12 (1 - cpr)) with 0 by lra. ring. }
  set (total := Qmin B (sched + (B - sched) * (1 - root12 (1 - cpr)))).
  assert (Hs : sched <= B) by (unfold sched; qmin_lra).
  assert (Ht : total == sched) by (unfold total; qmin_lra).
  split.
  - intro H. rewrite Ht. unfold sched. qmin_lra.
  - intro H. assert (Hs' : sched == B) by (unfold sched; qmin_lra).
    split; [lra|]. split; [lra|].
    assert (E : Qle_bool (B - total) eps = true).
    { apply Qle_bool_iff. unfold eps. lra. }
    rewrite E, orb_true_r. reflexivity.
Qed.

Lemma step_level_payment_witness :
  is_inert live_loan = false /\ (1 # 2) <= 1 /\
  ~ default_fires (fun x => x) (1 # 2) draws_075 /\ 0 <= 1 /\ 1 - 0 == 1 /\
  exists cf m',
    Mortgage.step (fun x => x) live_loan 0 (1 # 2) (1 # 4) draws_075
    = Ok (cf, m', snd (random draws_075)) /\
    cf_interest cf = Mortgage.balance live_loan * (Mortgage.rate live_loan / 12) /\
    cf_loss cf = 0.
Proof.
  assert (H1 : is_inert live_loan = false) by reflexivity.
  assert (H2 : (1 # 2) <= 1) by (vm_compute; discriminate).
  assert (H3 : ~ default_fires (fun x => x) (1 # 2) draws_075)
    by (vm_compute; discriminate).
  assert (H4 : 0 <= 1) by (vm_compute; discriminate).
  assert (H5 : (fun x : Q => x) (1 - 0) == 1) by reflexivity.
  split; [exact H1|]. split; [exact H2|]. split; [exact H3|]. split; [exact H4|].
  split; [exact H5|].
  destruct (step_level_payment (fun x => x) live_loan 0 (1 # 2) (1 # 4) draws_075
              H1 H2 H3 H4 H5) as (cf & m' & E & Hi & Hl & _).
  exists cf, m'. split; [exact E|]. split; [exact Hi | exact Hl].
Defined.



(** ** The life of a loan *)

Lemma step_months_inert (root12 : Q -> Q) (m : Mortgage.t) (cpr cdr recovery : Q)
  (g : rng) (n : nat) :
  inert m ->
  step_months root12 n m cpr cdr recovery g = Ok (repeat (mkCashflow 0 0 0) n, m, g).
Proof.
  intro H. induction n as [|n IH]; [reflexivity|].
  cbn [step_months]. rewrite (step_inert _ _ _ _ _ _ H). cbn [bind].
  rewrite IH. reflexivity.
Qed.

(** After a step a loan is inert, or it has one month less to go and still
    some months left. *)
Lemma step_progress (root12 : Q -> Q) (m : Mortgage.t) (cpr cdr recovery : Q)
  (g : rng) (cf : cashflow) (m' : Mortgage.t) (g' : rng) :
  Mortgage.step root12 m cpr cdr recovery g = Ok (cf, m', g') ->
  inert m' \/
  (Mortgage.remaining m' = (Mortgage.remaining m - 1)%Z /\
   (0 < Mortgage.remaining m')%Z).
Proof.
  unfold Mortgage.step.
  destruct (negb (Mortgage.alive m) || Qle_bool (Mortgage.balance m) eps) eqn:Ei.
  { intro H. injection H as _ <- _. left. now apply is_inert_true. }
  destruct (one_minus (pow_twelfth root12 (1 - cdr))) as [md|]; [|discriminate].
  cbn [random].
  destruct (Qlt_bool (g O) md).
  { intro H. injection H as _ <- _. left. left. reflexivity. }
  destruct (one_minus (pow_twelfth root12 (1 - cpr))) as [mp|]; [|discriminate].
  intro H. injection H as _ <- _.
  match goal with
  | |- context [if ?c then false else _] => destruct c eqn:Ec
  end.
  - left. left. reflexivity.
  - right. cbn. apply orb_false_iff in Ec. destruct Ec as [Ec _].
    apply Z.leb_gt in Ec. split; [reflexivity | exact Ec].
Qed.

(** X5: a loan stepped for at least one month and at least as many months
    as it has remaining is inert at the end, whatever it paid, prepaid or
    lost on the way (provided no step raised). *)
Theorem loan_inert_within_remaining (root12 : Q -> Q) (n : nat) :
  forall (m : Mortgage.t) (cpr cdr recovery : Q) (g : rng)
         (cfs : list cashflow) (m' : Mortgage.t) (g' : rng),
    (1 <= n)%nat -> (Mortgage.remaining m <= Z.of_nat n)%Z ->
    step_months root12 n m cpr cdr recovery g = Ok (cfs, m', g') ->
    inert m'.
Proof.
  induction n as [|n IH]; intros m cpr cdr recovery g cfs m' g' Hn Hrem; [lia|].
  cbn [step_months].
  destruct (Mortgage.step root12 m cpr cdr recovery g) as [[[cf m1] g1]|e] eqn:E1;
    cbn [bind]; [|discriminate].
  destruct (step_months root12 n m1 cpr cdr recovery g1) as [[[cfs1 m2] g2]|e] eqn:E2;
    cbn [bind]; [|discriminate].
  intro H. injection H as _ <- _.
  destruct (step_progress _ _ _ _ _ _ _ _ _ E1) as [Hin|[Hr Hpos]].
  - rewrite (step_months_inert _ _ _ _ _ _ n Hin) in E2.
    injection E2 as _ <- _. exact Hin.
  - apply (IH m1 cpr cdr recovery g1 cfs1 m2 g2); [lia | lia | exact E2].
Qed.

Lemma loan_inert_within_remaining_witness :
  (1 <= 2)%nat /\ (Mortgage.remaining (Mortgage.mk 1024 3 2 2 712 true) <= Z.of_nat 2)%Z /\
  exists cfs m' g',
    step_months (fun x => x) 2 (Mortgage.mk 1024 3 2 2 712 true) 0 0 (1 # 2) draws_075
    = Ok (cfs, m', g') /\ inert m'.
Proof.
  assert (H1 : (1 <= 2)%nat) by lia.
  assert (H2 : (Mortgage.remaining (Mortgage.mk 1024 3 2 2 712 true) <= Z.of_nat 2)%Z)
    by (vm_compute; discriminate).
  split; [exact H1|]. split; [exact H2|].
  destruct (step_months (fun x => x) 2 (Mortgage.mk 1024 3 2 2 712 true) 0 0 (1 # 2)
              draws_075) as [[[cfs m'] g']|e] eqn:E.
  - exists cfs, m', g'. split; [reflexivity|].
    exact (loan_inert_within_remaining _ 2 _ _ _ _ _ _ _ _ H1 H2 E).
  - exfalso. vm_compute in E. discriminate E.
Defined.

(** ** A loan without prepayment or default *)

(** A step with CDR = 0 and CPR = 0, where 1 ** (1 / 12) is 1 and the
    draw is not negative, returns, loses nothing, and pays as principal
    what the balance falls by. *)
Lemma step_no_default (root12 : Q -> Q) (m : Mortgage.t) (g : rng) :
  root12 1 == 1 -> (forall i, 0 <= g i) ->
  exists cf m' g',
    (forall recovery, Mortgage.step root12 m 0 0 recovery g = Ok (cf, m', g')) /\
    (forall i, 0 <= g' i) /\ cf_loss cf == 0.
Proof.
  intros Hroot Hg. unfold Mortgage.step.
  destruct (negb (Mortgage.alive m) || Qle_bool (Mortgage.balance m) eps).
  { do 3 eexists. split; [reflexivity|]. split; [exact Hg | reflexivity]. }
  unfold pow_twelfth. change (Qlt_bool (1 - 0) 0) with false. cbn iota.
  change (1 - 0) with 1. cbn [one_minus random].
  assert (Hmd : Qlt_bool (g O) (1 - root12 1) = false).
  { apply Qlt_bool_false. specialize (Hg O). lra. }
  rewrite Hmd. do 3 eexists. split; [reflexivity|].
  split; [intro i; apply Hg | reflexivity].
Qed.

Lemma step_months_no_default (root12 : Q -> Q) (recovery : Q) (j : nat) :
  root12 1 == 1 ->
  forall m g,
    loan_ok m -> (forall i, 0 <= g i) ->
    exists cfs m' g',
      step_months root12 j m 0 0 recovery g = Ok (cfs, m', g') /\
      loan_ok m' /\
      Qsum (map cf_principal cfs) == Mortgage.balance m - Mortgage.balance m' /\
      Forall (fun cf => 0 <= cf_interest cf /\ 0 <= cf_principal cf /\
                        cf_loss cf == 0) cfs /\
      ((1 <= j)%nat ->
       inert m' \/
       (Mortgage.remaining m' = (Mortgage.remaining m - Z.of_nat j)%Z /\
        (0 < Mortgage.remaining m')%Z)).
Proof.
  intros Hroot.
  assert (Hpre : root12 (1 - 0) <= 1).
  { change (1 - 0) with 1. rewrite Hroot. apply Qle_refl. }
  assert (Hr0 : 0 <= 0) by apply Qle_refl.
  assert (Hr1 : 0 <= 1) by discriminate.
  induction j as [|j IH]; intros m g Hm Hg.
  - exists [], m, g. split; [reflexivity|]. split; [exact Hm|].
    split; [cbn; ring|]. split; [constructor | lia].
  - destruct (step_no_default root12 m g Hroot Hg)
      as (cf & m1 & g1 & E & Hg1 & Hl).
    destruct (step_ok _ _ _ _ _ _ _ _ _ Hm Hr0 Hr1 Hpre (E 0)) as (Hm1 & Hi & Hp & _).
    pose proof (E recovery) as E1.
    pose proof (step_balance _ _ _ _ _ _ _ _ _ E1) as Hbal.
    destruct (IH m1 g1 Hm1 Hg1) as (cfs & m' & g' & E2 & Hm' & Hsum & Hall & Hend).
    exists (cf :: cfs), m', g'. cbn [step_months]. rewrite E1. cbn [bind].
    rewrite E2. cbn [bind]. split; [reflexivity|]. split; [exact Hm'|].
    split; [cbn [map]; rewrite Qsum_cons, Hsum; lra|].
    split; [constructor; [now repeat split | exact Hall]|].
    intros _.
    destruct (step_progress _ _ _ _ _ _ _ _ _ E1) as [Hin|[Hrem Hpos]].
    + rewrite (step_months_inert _ _ _ _ _ _ j Hin) in E2.
      injection E2 as _ <- _. now left.
    + destruct j as [|j'].
      * injection E2 as _ <- _. right. split; [lia | exact Hpos].
      * destruct Hend as [Hin|[Hrem' Hpos']]; [lia | now left | right].
        split; [lia | exact Hpos'].
Qed.

(** C1, as stated, fails in the program's floats: the loan created with
    principal 1e9, annual rate 12 and a term of 2 months has the payment
    1333333333.3333333; stepped twice with CPR = 0 and CDR = 0 it ends,
    no longer alive, with the balance 2^-22 (about 2.4e-07), which is
    more than 1e-9, and its principal cashflows add up to
    999999999.99999976, which is more than 1e-9 away from the
    principal.  (With CPR = 0 and CDR = 0 the base of the twelfth root is
    1.0, whose power is 1.0 without a call of the library: the root
    passed here is never consulted.) *)
Lemma amortization_leaves_residue :
  exists m cfs m',
    Binary64.Mortgage.create 1e9 12 2 = Ok m /\
    Binary64.step_months (fun _ => nan) 2 m 0 0 0.5 (fun _ => 0.5%float)
    = Ok (cfs, m') /\
    Binary64.Mortgage.alive m' = false /\
    Binary64.Mortgage.balance m' = 0x1p-22%float /\
    (Binary64.eps <? Binary64.Mortgage.balance m')%float = true /\
    (Binary64.eps <? 1e9 - Binary64.principal_sum cfs)%float = true.
Proof.
  do 3 eexists. split; [vm_compute; reflexivity|].
  split; [vm_compute; reflexivity|].
  repeat split; vm_compute; reflexivity.
Qed.

(** A loan whose payment is rounded to the month's interest never
    amortizes: created with principal 1000, annual rate 12 and a term of
    60 months, the power 2^-60 is lost in 1 - 2^-60, the payment is the
    interest 1000, and after the 60 months the balance is still the
    principal. *)
Lemma amortization_interest_only :
  exists m cfs m',
    Binary64.Mortgage.create 1000 12 60 = Ok m /\
    Binary64.Mortgage.payment m = 1000%float /\
    Binary64.step_months (fun _ => nan) 60 m 0 0 0.5 (fun _ => 0.5%float)
    = Ok (cfs, m') /\
    Binary64.Mortgage.alive m' = false /\
    Binary64.Mortgage.balance m' = 1000%float /\
    Binary64.principal_sum cfs = 0%float.
Proof.
  do 3 eexists. split; [vm_compute; reflexivity|].
  split; [vm_compute; reflexivity|].
  split; [vm_compute; reflexivity|].
  repeat split; vm_compute; reflexivity.
Qed.

(** C1 (amended): a loan that [create] returns from a positive principal,
    annual rate and term, stepped once per month with CPR = 0 and
    CDR = 0 (any recovery) for its original term, is inert at the
    end: every step returns, no month has a loss, interest and principal
    are never negative, the balance left is between zero and the
    principal, and the principal cashflows add up to the principal less
    the balance left.  The draws of the generator are non-negative, as
    those of [random.random()] are, and 1 ** (1 / 12) is 1.  How small the
    balance left is depends on the rounding of the payment and of the
    balances. *)
Theorem amortization_runs_off (root12 : Q -> Q) (principal r : Q) (n : Z)
  (recovery : Q) (g : rng) (m : Mortgage.t) :
  0 < principal -> 0 < r -> (0 < n)%Z ->
  root12 1 == 1 -> (forall i, 0 <= g i) ->
  Mortgage.create principal r n = Ok m ->
  exists cfs m' g',
    step_months root12 (Z.to_nat n) m 0 0 recovery g = Ok (cfs, m', g') /\
    inert m' /\
    0 <= Mortgage.balance m' /\ Mortgage.balance m' <= principal /\
    Qsum (map cf_principal cfs) == principal - Mortgage.balance m' /\
    Forall (fun cf => 0 <= cf_interest cf /\ 0 <= cf_principal cf /\
                      cf_loss cf == 0) cfs.
Proof.
  intros HP Hr Hn Hroot Hg Hc.
  pose proof (create_loan_ok _ _ _ _ HP Hr Hn Hc) as Hm.
  destruct (create_payment_covers principal r n m) as (Em & _);
    [lra | exact Hr | exact Hn | exact Hc |].
  destruct (step_months_no_default root12 recovery (Z.to_nat n) Hroot m g Hm Hg)
    as (cfs & m' & g' & E & Hm' & Hsum & Hall & Hend).
  exists cfs, m', g'. split; [exact E|].
  assert (Hbal : Mortgage.balance m = principal) by (rewrite Em; reflexivity).
  assert (Hrem : Mortgage.remaining m = n) by (rewrite Em; reflexivity).
  rewrite Hbal in Hsum.
  assert (Hsum0 : 0 <= Qsum (map cf_principal cfs)).
  { clear - Hall. induction Hall as [|cf l (_ & Hp & _) _ IH]; [apply Qle_refl|].
    cbn [map]. rewrite Qsum_cons. lra. }
  split.
  - destruct Hend as [Hin|[Hrem' Hpos]]; [lia | exact Hin | lia].
  - destruct Hm' as (Hb & _). split; [exact Hb|]. split; [lra|].
    split; [exact Hsum | exact Hall].
Qed.

Lemma amortization_runs_off_witness :
  0 < 1000 /\ 0 < 12 /\ (0 < 2)%Z /\
  exists m cfs m' g',
    Mortgage.create 1000 12 2 = Ok m /\
    step_months (fun x => x) (Z.to_nat 2) m 0 0 (1 # 2) (fun _ => 1 # 2)
    = Ok (cfs, m', g') /\
    inert m' /\
    Qsum (map cf_principal cfs) == 1000 - Mortgage.balance m'.
Proof.
  assert (H1 : 0 < 1000) by reflexivity.
  assert (H2 : 0 < 12) by reflexivity.
  assert (H3 : (0 < 2)%Z) by reflexivity.
  assert (H6 : (fun x : Q => x) 1 == 1) by reflexivity.
  assert (H7 : forall i : nat, 0 <= (fun _ : nat => 1 # 2) i)
    by (intro i; vm_compute; discriminate).
  split; [exact H1|]. split; [exact H2|]. split; [exact H3|].
  destruct (Mortgage.create 1000 12 2) as [m|e] eqn:E.
  - destruct (amortization_runs_off (fun x => x) 1000 12 2 (1 # 2) (fun _ => 1 # 2) m
                H1 H2 H3 H6 H7 E) as (cfs & m' & g' & Hrun & Hin & _ & _ & Hsum & _).
    exists m, cfs, m', g'. split; [reflexivity|]. split; [exact Hrun|].
    split; [exact Hin | exact Hsum].
  - exfalso. vm_compute in E. discriminate E.
Defined.

(** X24: a well-formed loan stepped for [k] months with CPR = 0 and
    CDR = 0 (any recovery; non-negative draws, 1 ** (1 / 12) = 1) never
    raises and never takes a loss; interest and principal are never
    negative, the principal cashflows add up to what the balance has
    fallen by, the loan stays well-formed, and after at least one month
    it is inert or has exactly [k] months less remaining, with some
    still to go. *)
Theorem step_months_without_default (root12 : Q -> Q) (recovery : Q) (k : nat)
  (m : Mortgage.t) (g : rng) :
  loan_ok m -> root12 1 == 1 -> (forall i, 0 <= g i) ->
  exists cfs m' g',
    step_months root12 k m 0 0 recovery g = Ok (cfs, m', g') /\
    loan_ok m' /\
    Qsum (map cf_principal cfs) == Mortgage.balance m - Mortgage.balance m' /\
    Forall (fun cf => 0 <= cf_interest cf /\ 0 <= cf_principal cf /\
                      cf_loss cf == 0) cfs /\
    ((1 <= k)%nat ->
     inert m' \/
     (Mortgage.remaining m' = (Mortgage.remaining m - Z.of_nat k)%Z /\
      (0 < Mortgage.remaining m')%Z)).
Proof.
  intros Hm Hroot Hg.
  exact (step_months_no_default root12 recovery k Hroot m g Hm Hg).
Qed.

Lemma step_months_without_default_witness :
  loan_ok live_loan /\
  exists cfs m' g',
    step_months (fun x => x) 1 live_loan 0 0 (1 # 2) (fun _ => 1 # 2)
    = Ok (cfs, m', g') /\
    Qsum (map cf_principal cfs) == Mortgage.balance live_loan - Mortgage.balance m'.
Proof.
  assert (H1 : loan_ok live_loan) by (repeat split; vm_compute; discriminate).
  assert (H2 : (fun x : Q => x) 1 == 1) by reflexivity.
  assert (H3 : forall i : nat, 0 <= (fun _ : nat => 1 # 2) i)
    by (intro i; vm_compute; discriminate).
  split; [exact H1|].
  destruct (step_months_without_default (fun x => x) (1 # 2) 1 live_loan
              (fun _ => 1 # 2) H1 H2 H3) as (cfs & m' & g' & E & _ & Hsum & _).
  exists cfs, m', g'. split; [exact E | exact Hsum].
Defined.

(** ** One month of the pool *)

Lemma pool_balance_cons (m : Mortgage.t) (ms : list Mortgage.t) :
  pool_balance (m :: ms) = Mortgage.balance m + pool_balance ms.
Proof. reflexivity. Qed.

(** X6: stepping the pool keeps every loan in its place and conserves
    principal: the balances before the month are the balances after it
    plus the principal cash and the losses the month added to the
    accumulators.  Interest only ever comes on top. *)
Theorem step_pool_conserves_balance (root12 : Q -> Q) (cpr cdr recovery : Q)
  (ms : list Mortgage.t) :
  forall (ci cp l : Q) (g : rng) (ms' : list Mortgage.t) (ci' cp' l' : Q) (g' : rng),
    step_pool root12 cpr cdr recovery ms ci cp l g = Ok (ms', (ci', cp', l'), g') ->
    List.length ms' = List.length ms /\
    pool_balance ms == pool_balance ms' + (cp' - cp) + (l' - l).
Proof.
  induction ms as [|mt rest IH]; intros ci cp l g ms' ci' cp' l' g'; cbn [step_pool].
  - intro H. injection H as <- _ <- <- _. split; [reflexivity|].
    unfold pool_balance. cbn [map]. rewrite Qsum_nil. ring.
  - destruct (Mortgage.step root12 mt cpr cdr recovery g) as [[[cf mt'] g1]|e] eqn:Es;
      cbn [bind]; [|discriminate].
    destruct (step_pool root12 cpr cdr recovery rest _ _ _ g1)
      as [[[rest' [[ci1 cp1] l1]] g2]|e] eqn:Ep; cbn [bind]; [|discriminate].
    intro H. injection H as <- <- <- <- _.
    destruct (IH _ _ _ _ _ _ _ _ _ Ep) as (Hlen & Hbal).
    pose proof (step_balance _ _ _ _ _ _ _ _ _ Es) as Hstep.
    split; [cbn [List.length]; now rewrite Hlen|].
    rewrite !pool_balance_cons, Hbal, Hstep. ring.
Qed.

Lemma step_pool_conserves_balance_witness :
  exists ms' ci cp l g',
    step_pool (fun x => x) 0 (1 # 2) (1 # 2) small_pool 0 0 0 draws_075
    = Ok (ms', (ci, cp, l), g') /\
    pool_balance small_pool == pool_balance ms' + (cp - 0) + (l - 0).
Proof.
  destruct (step_pool (fun x => x) 0 (1 # 2) (1 # 2) small_pool 0 0 0 draws_075)
    as [[[ms' [[ci cp] l]] g']|e] eqn:E.
  - exists ms', ci, cp, l, g'. split; [reflexivity|].
    exact (proj2 (step_pool_conserves_balance _ _ _ _ _ _ _ _ _ _ _ _ _ _ E)).
  - exfalso. vm_compute in E. discriminate E.
Defined.

(** X7: a month of the pool advances the generator by exactly one draw
    per loan that is not inert when its turn comes; inert loans draw
    nothing. *)
Theorem step_pool_draws (root12 : Q -> Q) (cpr cdr recovery : Q)
  (ms : list Mortgage.t) :
  forall (ci cp l : Q) (g : rng) (ms' : list Mortgage.t) (totals : Q * Q * Q)
         (g' : rng),
    step_pool root12 cpr cdr recovery ms ci cp l g = Ok (ms', totals, g') ->
    forall i, g' i = advance (active_count ms) g i.
Proof.
  induction ms as [|mt rest IH]; intros ci cp l g ms' totals g'; cbn [step_pool].
  - intro H. injection H as _ _ <-. intro i. unfold advance, active_count.
    cbn. f_equal. lia.
  - destruct (Mortgage.step root12 mt cpr cdr recovery g) as [[[cf mt'] g1]|e] eqn:Es;
      cbn [bind]; [|discriminate].
    destruct (step_pool root12 cpr cdr recovery rest _ _ _ g1)
      as [[[rest' tot1] g2]|e] eqn:Ep; cbn [bind]; [|discriminate].
    intro H. injection H as _ _ <-. intro i.
    rewrite (IH _ _ _ _ _ _ _ Ep i).
    rewrite (step_generator _ _ _ _ _ _ _ _ _ Es).
    unfold advance, active_count. cbn [filter].
    destruct (is_inert mt); cbn [negb List.length random snd]; f_equal; lia.
Qed.

Lemma step_pool_draws_witness :
  exists ms' totals g',
    step_pool (fun x => x) 0 (1 # 2) (1 # 2) (dead_loan :: small_pool) 0 0 0 draws_075
    = Ok (ms', totals, g') /\
    forall i, g' i = advance 2 draws_075 i.
Proof.
  destruct (step_pool (fun x => x) 0 (1 # 2) (1 # 2) (dead_loan :: small_pool) 0 0 0
              draws_075) as [[[ms' totals] g']|e] eqn:E.
  - exists ms', totals, g'. split; [reflexivity|].
    exact (step_pool_draws _ _ _ _ _ _ _ _ _ _ _ _ E).
  - exfalso. vm_compute in E. discriminate E.
Defined.

(** ** Accounts of the waterfall *)

Lemma principal_tranches_total (ts : list Tranche.t) :
  forall pool,
    total_balance (principal_tranches pool ts)
    == total_balance ts - Qsum (principal_payments pool ts).
Proof.
  induction ts as [|tr rest IH]; intro pool.
  - unfold principal_tranches, principal_payments. cbn [pay_principal fst snd].
    rewrite Qsum_nil. unfold total_balance. cbn [map]. rewrite Qsum_nil. ring.
  - principal_cons. rewrite !total_balance_cons, Qsum_cons, IH.
    cbn [Tranche.set_balance Tranche.balance]. ring.
Qed.

Lemma principal_tranches_same (ts : list Tranche.t) :
  forall pool, Forall2 same_tranche ts (principal_tranches pool ts).
Proof.
  induction ts as [|tr rest IH]; intro pool.
  - constructor.
  - principal_cons. constructor; [now split | apply IH].
Qed.

Lemma loop_same (visit : list Tranche.t) :
  forall loss, Forall2 same_tranche visit (allocate_losses_loop loss visit).
Proof.
  assert (Hrefl : forall l, Forall2 same_tranche l l).
  { induction l; constructor; [now split | assumption]. }
  induction visit as [|tr rest IH]; intro loss; cbn [allocate_losses_loop].
  - constructor.
  - destruct (Qle_bool _ eps); constructor; try (now split); auto.
Qed.

Lemma same_tranche_trans (l1 l2 : list Tranche.t) :
  Forall2 same_tranche l1 l2 ->
  forall l3, Forall2 same_tranche l2 l3 -> Forall2 same_tranche l1 l3.
Proof.
  induction 1 as [|a b l1 l2 [Hn Hc] _ IH]; intros l3 H;
    inversion H as [|? c ? ? [Hn' Hc'] Hrest]; subst; constructor.
  - split; congruence.
  - now apply IH.
Qed.

(** The fields of [run_waterfall], from its three loops. *)
Lemma run_waterfall_fields (ci cp l : Q) (ts : list Tranche.t) :
  after_losses (run_waterfall ci cp l ts) = allocate_losses l ts /\
  interest_paid (run_waterfall ci cp l ts) = fst (pay_interest ci (allocate_losses l ts)) /\
  interest_left (run_waterfall ci cp l ts) = snd (pay_interest ci (allocate_losses l ts)) /\
  principal_available (run_waterfall ci cp l ts)
  = cp + snd (pay_interest ci (allocate_losses l ts)) /\
  after_principal (run_waterfall ci cp l ts)
  = principal_tranches (cp + snd (pay_interest ci (allocate_losses l ts)))
      (allocate_losses l ts) /\
  principal_paid (run_waterfall ci cp l ts)
  = principal_payments (cp + snd (pay_interest ci (allocate_losses l ts)))
      (allocate_losses l ts) /\
  principal_left (run_waterfall ci cp l ts)
  = principal_leftover (cp + snd (pay_interest ci (allocate_losses l ts)))
      (allocate_losses l ts).
Proof.
  unfold run_waterfall, principal_tranches, principal_payments, principal_leftover.
  destruct (pay_interest ci (allocate_losses l ts)) as [ipaid ileft]. cbn [fst snd].
  destruct (pay_principal (cp + ileft) (allocate_losses l ts)) as [[ts2 ppaid] pleft].
  cbn. repeat split.
Qed.

Lemma waterfall_cash_identity_lengths (ci cp l : Q) (ts : list Tranche.t) :
  List.length (interest_paid (run_waterfall ci cp l ts)) = List.length ts /\
  List.length (principal_paid (run_waterfall ci cp l ts)) = List.length ts.
Proof.
  destruct (run_waterfall_fields ci cp l ts) as (_ & E2 & _ & _ & _ & E6 & _).
  rewrite E2, E6.
  assert (Hlen : List.length (allocate_losses l ts) = List.length ts).
  { unfold allocate_losses. now rewrite length_rev, loop_length, length_rev. }
  split.
  - now rewrite pay_interest_length.
  - now rewrite (proj2 (pay_principal_length _ _)).
Qed.

(** X8: in a month's waterfall no cash is created or lost: the interest
    paid, the principal paid and what is left of the principal pool add
    up to the interest cash plus the principal cash, whatever the inputs;
    the leftover is not paid to anyone. *)
Theorem waterfall_cash_identity (ci cp l : Q) (ts : list Tranche.t) :
  Qsum (interest_paid (run_waterfall ci cp l ts))
  + Qsum (principal_paid (run_waterfall ci cp l ts))
  + principal_left (run_waterfall ci cp l ts) == ci + cp /\
  List.length (interest_paid (run_waterfall ci cp l ts)) = List.length ts /\
  List.length (principal_paid (run_waterfall ci cp l ts)) = List.length ts.
Proof.
  destruct (run_waterfall_fields ci cp l ts) as (E1 & E2 & _ & _ & _ & E6 & E7).
  rewrite E2, E6, E7.
  pose proof (pay_interest_left (allocate_losses l ts) ci) as Hi.
  pose proof (pay_principal_left (allocate_losses l ts)
                (cp + snd (pay_interest ci (allocate_losses l ts)))) as Hp.
  assert (Hlen : List.length (allocate_losses l ts) = List.length ts).
  { unfold allocate_losses. now rewrite length_rev, loop_length, length_rev. }
  split; [lra|]. split.
  - now rewrite pay_interest_length.
  - now rewrite (proj2 (pay_principal_length _ _)).
Qed.

(** X9: over a month's waterfall the total tranche balance falls by
    exactly the loss the tranches absorbed (the loss less what the loop
    left unallocated) plus the principal paid; interest payments do not
    touch balances. *)
Theorem waterfall_balance_identity (ci cp l : Q) (ts : list Tranche.t) :
  total_balance (after_principal (run_waterfall ci cp l ts))
  == total_balance ts - (l - loss_left l (rev ts))
     - Qsum (principal_paid (run_waterfall ci cp l ts)).
Proof.
  destruct (run_waterfall_fields ci cp l ts) as (_ & _ & _ & _ & E5 & E6 & _).
  rewrite E5, E6, principal_tranches_total, allocate_losses_total. reflexivity.
Qed.

(** X10: the waterfall never renames, reorders, adds or drops a tranche
    and never changes a coupon: after the loss allocation and after the
    whole month the tranches are the same ones, position by position, up
    to their balances. *)
Theorem waterfall_keeps_tranches (ci cp l : Q) (ts : list Tranche.t) :
  Forall2 same_tranche ts (allocate_losses l ts) /\
  Forall2 same_tranche ts (after_principal (run_waterfall ci cp l ts)).
Proof.
  assert (H : Forall2 same_tranche ts (allocate_losses l ts))
    by apply allocate_losses_pointwise, loop_same.
  split; [exact H|].
  destruct (run_waterfall_fields ci cp l ts) as (_ & _ & _ & _ & E5 & _).
  rewrite E5. apply (same_tranche_trans _ _ H), principal_tranches_same.
Qed.

(** X11: a loss no larger than the balance of the least senior tranche
    touches no other tranche: the last tranche's balance falls by exactly
    the loss and every more senior tranche is returned as it was. *)
Theorem allocate_losses_equity_first (loss : Q) (seniors : list Tranche.t)
  (equity : Tranche.t) :
  loss <= Tranche.balance equity ->
  exists equity',
    allocate_losses loss (seniors ++ [equity]) = seniors ++ [equity'] /\
    Tranche.balance equity' == Tranche.balance equity - loss /\
    same_tranche equity equity'.
Proof.
  intros H1. unfold allocate_losses.
  rewrite rev_app_distr. cbn [rev app allocate_losses_loop].
  assert (Hhit : Qmin (Tranche.balance equity) loss == loss) by qmin_lra.
  assert (E : Qle_bool (loss - Qmin (Tranche.balance equity) loss) eps = true).
  { apply Qle_bool_iff. unfold eps. lra. }
  rewrite E. cbn [rev]. rewrite rev_involutive.
  eexists. split; [reflexivity|]. split; [cbn; lra | now split].
Qed.

Lemma allocate_losses_equity_first_witness :
  7 <= Tranche.balance (Tranche.mk "Equity" 20 0) /\
  exists equity',
    allocate_losses 7 ([Tranche.mk "Senior" 50 (3 # 100)] ++ [Tranche.mk "Equity" 20 0])
    = [Tranche.mk "Senior" 50 (3 # 100)] ++ [equity'] /\
    Tranche.balance equity' == Tranche.balance (Tranche.mk "Equity" 20 0) - 7 /\
    same_tranche (Tranche.mk "Equity" 20 0) equity'.
Proof.
  assert (H2 : 7 <= Tranche.balance (Tranche.mk "Equity" 20 0))
    by (vm_compute; discriminate).
  split; [exact H2|].
  exact (allocate_losses_equity_first 7 [Tranche.mk "Senior" 50 (3 # 100)]
           (Tranche.mk "Equity" 20 0) H2).
Defined.







(** ** The present-value dictionary *)

Lemma dict_get_in (d : dict) (k : string) :
  (exists v, dict_get d k = Some v) <-> In k (keys d).
Proof.
  induction d as [|[k' v'] d IH]; cbn [dict_get keys map fst In].
  - split; [intros [v H]; discriminate H | contradiction].
  - destruct (String.eqb k k') eqn:E.
    + apply String.eqb_eq in E. subst k'. split; [now left | intros _; now exists v'].
    + apply String.eqb_neq in E. rewrite IH. unfold keys. split; [now right|].
      intros [H|H]; [congruence | exact H].
Qed.

Lemma keys_dict_set (d : dict) (k : string) (v : Q) :
  In k (keys d) -> keys (dict_set d k v) = keys d.
Proof.
  induction d as [|[k' v'] d IH]; cbn [dict_set keys map fst In]; [contradiction|].
  destruct (String.eqb k k') eqn:E; [reflexivity|].
  apply String.eqb_neq in E. intros [H|H]; [congruence|].
  cbn [map fst]. f_equal. now apply IH.
Qed.

Lemma keys_dict_set_incl (d : dict) (k : string) (v : Q) :
  In k (keys (dict_set d k v)) /\ incl (keys d) (keys (dict_set d k v)).
Proof.
  induction d as [|[k' v'] d [IH1 IH2]]; cbn [dict_set keys map fst].
  - split; [now left | intros x []].
  - destruct (String.eqb k k') eqn:E; cbn [map fst].
    + apply String.eqb_eq in E. subst k'. split; [now left | apply incl_refl].
    + split; [right; exact IH1|].
      intros x [H|H]; [now left | right; now apply IH2].
Qed.

Lemma values_dict_get (P : Q -> Prop) (d : dict) (k : string) (v : Q) :
  Forall P (values d) -> dict_get d k = Some v -> P v.
Proof.
  induction d as [|[k' v'] d IH]; cbn [dict_get values map snd]; [discriminate|].
  intro H. inversion H as [|? ? Hv Hd]; subst.
  destruct (String.eqb k k'); [intro E; now injection E as <- | now apply IH].
Qed.

Lemma values_dict_set (P : Q -> Prop) (d : dict) (k : string) (v : Q) :
  Forall P (values d) -> P v -> Forall P (values (dict_set d k v)).
Proof.
  induction d as [|[k' v'] d IH]; cbn [dict_set values map snd]; intros H Hv.
  - now repeat constructor.
  - inversion H as [|? ? Hv' Hd]; subst.
    destruct (String.eqb k k'); cbn [map snd]; constructor; auto.
Qed.

(** The comprehension [{t.name: 0.0 for t in tranches}] has a key for
    every tranche and only zeros as values. *)
Lemma zero_pv_spec (ts : list Tranche.t) :
  incl (map Tranche.name ts) (keys (zero_pv ts)) /\
  Forall (fun v => v = 0) (values (zero_pv ts)).
Proof.
  unfold zero_pv.
  assert (H : forall d,
             Forall (fun v => v = 0) (values d) ->
             incl (keys d ++ map Tranche.name ts)
               (keys (fold_left (fun d tr => dict_set d (Tranche.name tr) 0) ts d)) /\
             Forall (fun v => v = 0)
               (values (fold_left (fun d tr => dict_set d (Tranche.name tr) 0) ts d))).
  { induction ts as [|t ts IH]; intros d Hd; cbn [fold_left map].
    - rewrite app_nil_r. split; [apply incl_refl | exact Hd].
    - destruct (IH (dict_set d (Tranche.name t) 0)) as [I V].
      { now apply values_dict_set. }
      split; [|exact V].
      destruct (keys_dict_set_incl d (Tranche.name t) 0) as [K1 K2].
      intros x Hx. apply I. apply in_app_or in Hx. apply in_or_app.
      destruct Hx as [Hx|[Hx|Hx]]; [left; now apply K2 | left; now subst | now right]. }
  destruct (H [] (Forall_nil _)) as [I V]. split; [exact I | exact V].
Qed.

Lemma same_tranche_names (l l' : list Tranche.t) :
  Forall2 same_tranche l l' -> map Tranche.name l' = map Tranche.name l.
Proof.
  induction 1 as [|t t' l l' [Hn _] _ IH]; [reflexivity|].
  cbn [map]. now rewrite Hn, IH.
Qed.

(** With a key for every tranche and a non-zero discount factor the
    discounting loop does not raise, and it keeps the keys. *)
Lemma discount_ok (df : Q) (ts : list Tranche.t) :
  ~ df == 0 ->
  forall ip pp pv,
    incl (map Tranche.name ts) (keys pv) ->
    exists pv', discount df ts ip pp pv = Ok pv' /\ keys pv' = keys pv.
Proof.
  intro Hdf. induction ts as [|t ts IH]; intros ip pp pv Hk.
  - exists pv. now split.
  - destruct ip as [|i ip]; [exists pv; now split|].
    destruct pp as [|p pp]; [exists pv; now split|].
    cbn [discount].
    assert (Hin : In (Tranche.name t) (keys pv)) by (apply Hk; now left).
    destruct (proj2 (dict_get_in pv (Tranche.name t)) Hin) as [old Hold].
    rewrite Hold. unfold float_div.
    apply Qeq_bool_false in Hdf. rewrite Hdf. cbn [bind].
    destruct (IH ip pp (dict_set pv (Tranche.name t) (old + (i + p) / df)))
      as (pv' & E & K).
    { rewrite keys_dict_set by exact Hin. intros x Hx. apply Hk. now right. }
    exists pv'. split; [exact E|]. rewrite K. now apply keys_dict_set.
Qed.

Lemma discount_nonneg (df : Q) (ts : list Tranche.t) :
  0 <= df ->
  forall ip pp pv pv',
    Forall (Qle 0) ip -> Forall (Qle 0) pp -> Forall (Qle 0) (values pv) ->
    discount df ts ip pp pv = Ok pv' -> Forall (Qle 0) (values pv').
Proof.
  intro Hdf. induction ts as [|t ts IH]; intros ip pp pv pv' Hi Hp Hv.
  - cbn [discount]. intro H. now injection H as <-.
  - destruct ip as [|i ip]; [cbn; intro H; now injection H as <-|].
    destruct pp as [|p pp]; [cbn; intro H; now injection H as <-|].
    cbn [discount].
    destruct (dict_get pv (Tranche.name t)) as [old|] eqn:Hold; [|discriminate].
    unfold float_div. destruct (Qeq_bool df 0) eqn:Ez; [discriminate|]. cbn [bind].
    apply Qeq_bool_false in Ez.
    inversion Hi as [|? ? Hi0 Hi']; inversion Hp as [|? ? Hp0 Hp']; subst.
    apply IH; try assumption.
    apply values_dict_set; [exact Hv|].
    pose proof (values_dict_get _ _ _ _ Hv Hold) as Ho. cbn beta in Ho.
    assert (0 <= (i + p) / df) by (apply Qle_shift_div_l; lra).
    lra.
Qed.

(** ** Exceptions of a path *)

Lemma step_total (root12 : Q -> Q) (m : Mortgage.t) (cpr cdr recovery : Q) (g : rng) :
  cdr <= 1 -> cpr <= 1 ->
  exists r, Mortgage.step root12 m cpr cdr recovery g = Ok r.
Proof.
  intros Hcdr Hcpr. unfold Mortgage.step.
  destruct (negb (Mortgage.alive m) || Qle_bool (Mortgage.balance m) eps);
    [eexists; reflexivity|].
  rewrite (pow_twelfth_real _ _ Hcdr), (pow_twelfth_real _ _ Hcpr).
  cbn [one_minus random].
  destruct (Qlt_bool (g O) (1 - root12 (1 - cdr))); eexists; reflexivity.
Qed.

Lemma step_pool_total (root12 : Q -> Q) (cpr cdr recovery : Q) (ms : list Mortgage.t) :
  cdr <= 1 -> cpr <= 1 ->
  forall ci cp l g,
  exists r, step_pool root12 cpr cdr recovery ms ci cp l g = Ok r.
Proof.
  intros Hcdr Hcpr. induction ms as [|mt rest IH]; intros ci cp l g; cbn [step_pool].
  - eexists; reflexivity.
  - destruct (step_total root12 mt cpr cdr recovery g Hcdr Hcpr) as [[[cf mt'] g1] E].
    rewrite E. cbn [bind].
    destruct (IH (ci + cf_interest cf) (cp + cf_principal cf) (l + cf_loss cf) g1)
      as [[[rest' tot] g2] E']. rewrite E'. cbn [bind]. eexists. reflexivity.
Qed.

Lemma waterfall_names (ci cp l : Q) (ts : list Tranche.t) :
  map Tranche.name (after_principal (run_waterfall ci cp l ts)) = map Tranche.name ts.
Proof.
  apply same_tranche_names.
  destruct (run_waterfall_fields ci cp l ts) as (_ & _ & _ & _ & E5 & _).
  rewrite E5.
  apply (same_tranche_trans _ (allocate_losses l ts)).
  - apply allocate_losses_pointwise, loop_same.
  - apply principal_tranches_same.
Qed.

(** A discount factor on a base of at least 1 that stays within the
    range of floats up to the horizon is the power itself. *)
Lemma discount_factor_ok (b : Q) (horizon month : Z) :
  1 <= b -> (1 <= month <= horizon)%Z ->
  inject_Z horizon < overflow_threshold -> b ^ horizon < overflow_threshold ->
  float_pow_int b month = Ok (b ^ month) /\ 1 <= b ^ month.
Proof.
  intros Hb Hm Hfit Hpow.
  assert (H1 : 1 <= b ^ month) by (apply Qpower_1_le; [exact Hb | lia]).
  assert (H2 : b ^ month <= b ^ horizon)
    by (apply Qpower_le_compat_l; [lia | exact Hb]).
  destruct thresholds_pos as (Hu0 & Hu1 & Ho).
  assert (Habs : Qabs (b ^ month) == b ^ month) by (apply Qabs_pos; lra).
  destruct (float_pow_int_ok b month) as (p & Ep & Hcase).
  - rewrite Qabs_pos by (change 0 with (inject_Z 0); rewrite <- Zle_Qle; lia).
    apply Qle_lt_trans with (inject_Z horizon); [|exact Hfit].
    rewrite <- Zle_Qle. lia.
  - assert (E : (month <? 0)%Z = false) by (apply Z.ltb_ge; lia).
    rewrite E. apply Bool.andb_false_r.
  - rewrite Habs. lra.
  - split; [|exact H1].
    destruct Hcase as [[_ ->]|[Hle _]]; [exact Ep|].
    rewrite Habs in Hle. lra.
Qed.

(** The first discount factor on a zero base is zero. *)
Lemma discount_factor_zero (b : Q) : b == 0 -> float_pow_int b 1 = Ok 0.
Proof.
  intro Hb. unfold float_pow_int.
  change (int_to_float 1) with (Ok (A := Q) 1). cbn [bind].
  change (1 <? 0)%Z with false. rewrite Bool.andb_false_r.
  change (b ^ 1) with b. cbn zeta.
  assert (Habs : Qabs b == 0) by (rewrite Hb; reflexivity).
  assert (E1 : Qle_bool overflow_threshold (Qabs b) = false).
  { apply Qle_bool_false. rewrite Habs. reflexivity. }
  assert (E2 : Qle_bool (Qabs b) underflow_threshold = true).
  { apply Qle_bool_iff. rewrite Habs. discriminate. }
  now rewrite E1, E2.
Qed.

Section PathTotal.

Variable root12 : Q -> Q.
Variables cpr cdr recovery monthly_disc : Q.
Variable horizon : Z.
Hypothesis cdr_le_1 : cdr <= 1.
Hypothesis cpr_le_1 : cpr <= 1.
Hypothesis discount_base : 1 <= 1 + monthly_disc.
Hypothesis horizon_fits : inject_Z horizon < overflow_threshold.
Hypothesis discount_fits : (1 + monthly_disc) ^ horizon < overflow_threshold.

Lemma month_body_total (month : Z) (st : path_state) :
  (1 <= month <= horizon)%Z ->
  incl (map Tranche.name (tranches st)) (keys (pv st)) ->
  exists st',
    month_body root12 cpr cdr recovery monthly_disc month st = Ok st' /\
    keys (pv st') = keys (pv st) /\
    map Tranche.name (tranches st') = map Tranche.name (tranches st).
Proof.
  intros Hm Hk. unfold month_body.
  destruct (step_pool_total root12 cpr cdr recovery (mortgages st) cdr_le_1 cpr_le_1
              0 0 0 (gen st)) as [[[ms' [[ci cp] l]] g'] E].
  rewrite E. cbn [bind].
  destruct (discount_factor_ok _ horizon month discount_base Hm horizon_fits
              discount_fits) as (Edf & Hdf).
  rewrite Edf. cbn [bind].
  assert (Hnz : ~ (1 + monthly_disc) ^ month == 0) by lra.
  destruct (discount_ok ((1 + monthly_disc) ^ month)
              (after_principal (run_waterfall ci cp l (tranches st)))
              Hnz
              (interest_paid (run_waterfall ci cp l (tranches st)))
              (principal_paid (run_waterfall ci cp l (tranches st)))
              (pv st)) as (pv' & Ed & Kd).
  { now rewrite waterfall_names. }
  rewrite Ed. cbn [bind]. eexists. split; [reflexivity|].
  cbn [pv tranches]. split; [exact Kd | apply waterfall_names].
Qed.

Lemma months_loop_total (todo : nat) :
  forall month st,
    (1 <= month)%Z -> (month + Z.of_nat todo - 1 <= horizon)%Z ->
    incl (map Tranche.name (tranches st)) (keys (pv st)) ->
    exists st',
      months_loop root12 cpr cdr recovery monthly_disc todo month st = Ok st' /\
      keys (pv st') = keys (pv st).
Proof.
  induction todo as [|todo IH]; intros month st Hm Hh Hk; cbn [months_loop].
  - exists st. now split.
  - destruct (negb (existsb Mortgage.alive (mortgages st))); [exists st; now split|].
    destruct (month_body_total month st) as (st1 & E1 & K1 & N1); [lia | exact Hk |].
    rewrite E1. cbn [bind].
    destruct (IH (month + 1)%Z st1) as (st' & E' & K'); [lia | lia | |].
    { now rewrite N1, K1. }
    exists st'. split; [exact E'|]. now rewrite K', K1.
Qed.

End PathTotal.

Lemma monthly_discount_base (disc_rate : Q) :
  1 + disc_rate / 12 == 0 <-> disc_rate == - (12).
Proof.
  split; intro H.
  - assert (E : disc_rate / 12 == -(1)) by lra.
    setoid_replace disc_rate with (disc_rate / 12 * 12) by (field; discriminate).
    rewrite E. reflexivity.
  - rewrite H. reflexivity.
Qed.



(** The discount factor does overflow: at an annual discount rate of
    12 * (2^512 - 1) the factor of the second month is 2^1024, and the
    path raises [OverflowError] in its second month. *)
Lemma price_single_path_overflow :
  price_single_path (fun x => x) (fun g => Ok (small_pool, g)) tranche_defs 3
    0 0 (1 # 2) (12 * (inject_Z (2 ^ 512) - 1)) draws_075 = Raise OverflowError.
Proof. vm_compute. reflexivity. Qed.

(** X15: with an annual discount rate of -12 the first month's discount
    factor is zero: a path over at least one month, with at least one
    tranche and a pool in which some loan is alive, raises
    [ZeroDivisionError] when it discounts the first tranche's receipt
    (CDR and CPR at most 1, so that the month's stepping does not raise
    first). *)
Theorem price_single_path_zero_discount (root12 : Q -> Q)
  (pool_factory0 : rng -> result (list Mortgage.t * rng))
  (defs : list Tranche.t) (months : Z) (cpr cdr recovery disc_rate : Q)
  (g : rng) (ms0 : list Mortgage.t) (g0 : rng) :
  cdr <= 1 -> cpr <= 1 -> disc_rate == - (12) ->
  (0 < months)%Z -> defs <> [] ->
  pool_factory0 g = Ok (ms0, g0) -> existsb Mortgage.alive ms0 = true ->
  price_single_path root12 pool_factory0 defs months cpr cdr recovery disc_rate g
  = Raise ZeroDivisionError.
Proof.
  intros Hcdr Hcpr Hdisc Hmonths Hdefs Hpool Halive. unfold price_single_path.
  rewrite Hpool. cbn [bind].
  destruct (Z.to_nat months) as [|todo] eqn:En; [lia|].
  cbn [months_loop]. unfold path_start at 1. cbn [mortgages].
  rewrite Halive. cbn [negb]. unfold month_body.
  destruct (step_pool_total root12 cpr cdr recovery ms0 Hcdr Hcpr 0 0 0 g0)
    as [[[ms' [[ci cp] l]] g'] E].
  unfold path_start at 1 2. cbn [mortgages gen]. rewrite E. cbn [bind].
  rewrite (discount_factor_zero (1 + disc_rate / 12))
    by now apply monthly_discount_base.
  cbn [bind].
  unfold path_start. cbn [tranches pv]. rewrite copy_id.
  pose proof (waterfall_names ci cp l defs) as Hn.
  destruct (waterfall_cash_identity_lengths ci cp l defs) as (Li & Lp).
  destruct (after_principal (run_waterfall ci cp l defs)) as [|t ts'] eqn:Et.
  { destruct defs; [contradiction | discriminate Hn]. }
  destruct (interest_paid (run_waterfall ci cp l defs)) as [|i ip];
    [destruct defs; [contradiction | discriminate Li]|].
  destruct (principal_paid (run_waterfall ci cp l defs)) as [|p pp];
    [destruct defs; [contradiction | discriminate Lp]|].
  cbn [discount].
  assert (Hin : In (Tranche.name t) (keys (zero_pv defs))).
  { apply zero_pv_spec. rewrite <- Hn. now left. }
  destruct (proj2 (dict_get_in _ _) Hin) as [old Hold]. rewrite Hold.
  reflexivity.
Qed.

Lemma price_single_path_zero_discount_witness :
  (1 # 2) <= 1 /\ 0 <= 1 /\ - (12) == - (12) /\ (0 < 3)%Z /\ tranche_defs <> [] /\
  existsb Mortgage.alive small_pool = true /\
  price_single_path (fun x => x) (fun g => Ok (small_pool, g)) tranche_defs 3
    0 (1 # 2) (1 # 2) (- (12)) draws_075 = Raise ZeroDivisionError.
Proof.
  assert (H1 : (1 # 2) <= 1) by (vm_compute; discriminate).
  assert (H2 : 0 <= 1) by (vm_compute; discriminate).
  assert (H3 : - (12) == - (12)) by reflexivity.
  assert (H4 : (0 < 3)%Z) by reflexivity.
  assert (H5 : tranche_defs <> []) by discriminate.
  assert (H6 : existsb Mortgage.alive small_pool = true) by reflexivity.
  split; [exact H1|]. split; [exact H2|]. split; [exact H3|]. split; [exact H4|].
  split; [exact H5|]. split; [exact H6|].
  exact (price_single_path_zero_discount (fun x => x) (fun g => Ok (small_pool, g))
           tranche_defs 3 0 (1 # 2) (1 # 2) (- (12)) draws_075 small_pool draws_075
           H1 H2 H3 H4 H5 eq_refl H6).
Defined.

(** X16: a path with a horizon of zero months or less, or over a pool in
    which no loan is alive (an empty pool included), steps nothing and
    draws nothing: it returns a present value of 0 for every tranche and
    the generator as the pool factory left it. *)
Theorem price_single_path_nothing_to_do (root12 : Q -> Q)
  (pool_factory0 : rng -> result (list Mortgage.t * rng))
  (defs : list Tranche.t) (months : Z) (cpr cdr recovery disc_rate : Q)
  (g : rng) (ms0 : list Mortgage.t) (g0 : rng) :
  pool_factory0 g = Ok (ms0, g0) ->
  (months <= 0)%Z \/ existsb Mortgage.alive ms0 = false ->
  price_single_path root12 pool_factory0 defs months cpr cdr recovery disc_rate g
  = Ok (zero_pv (map Tranche.copy defs), g0) /\
  Forall (fun v => v = 0) (values (zero_pv (map Tranche.copy defs))) /\
  incl (map Tranche.name defs) (keys (zero_pv (map Tranche.copy defs))).
Proof.
  intros Hpool Hcase. split.
  - unfold price_single_path. rewrite Hpool. cbn [bind].
    destruct Hcase as [Hm|Hdead].
    + replace (Z.to_nat months) with O by lia. reflexivity.
    + destruct (Z.to_nat months); [reflexivity|].
      cbn [months_loop]. unfold path_start at 1. cbn [mortgages].
      rewrite Hdead. reflexivity.
  - rewrite copy_id. split; apply zero_pv_spec.
Qed.

Lemma price_single_path_nothing_to_do_witness :
  ((0 <= 0)%Z \/ existsb Mortgage.alive small_pool = false) /\
  price_single_path (fun x => x) (fun g => Ok (small_pool, g)) tranche_defs 0
    2 2 2 (- (12)) draws_075
  = Ok (zero_pv (map Tranche.copy tranche_defs), draws_075).
Proof.
  assert (H : (0 <= 0)%Z \/ existsb Mortgage.alive small_pool = false) by (left; lia).
  split; [exact H|].
  exact (proj1 (price_single_path_nothing_to_do (fun x => x)
                  (fun g => Ok (small_pool, g)) tranche_defs 0 2 2 2 (- (12))
                  draws_075 small_pool draws_075 eq_refl H)).
Defined.

(** X17: the month loop composes: running [j + k] months from month
    [month] is running [j] months and then [k] more from month
    [month + j] on the state reached, exceptions and early exit
    included. *)
Theorem months_loop_compose (root12 : Q -> Q) (cpr cdr recovery monthly_disc : Q)
  (j k : nat) (month : Z) (st : path_state) :
  months_loop root12 cpr cdr recovery monthly_disc (j + k) month st
  = match months_loop root12 cpr cdr recovery monthly_disc j month st with
    | Ok st1 =>
        months_loop root12 cpr cdr recovery monthly_disc k (month + Z.of_nat j) st1
    | Raise e => Raise e
    end.
Proof.
  rewrite months_loop_split. unfold bind.
  destruct (months_loop root12 cpr cdr recovery monthly_disc j month st); reflexivity.
Qed.

(** ** Present values *)

Section PathValues.

Variable root12 : Q -> Q.
Variables cpr cdr recovery monthly_disc : Q.
Hypothesis recovery_nonneg : 0 <= recovery.
Hypothesis recovery_le_1 : recovery <= 1.
Hypothesis prepay_nonneg : root12 (1 - cpr) <= 1.
Hypothesis discount_pos : 0 < 1 + monthly_disc.

Lemma month_body_values (month : Z) (st st' : path_state) :
  Forall loan_ok (mortgages st) -> Forall tranche_ok (tranches st) ->
  Forall (Qle 0) (values (pv st)) ->
  month_body root12 cpr cdr recovery monthly_disc month st = Ok st' ->
  Forall loan_ok (mortgages st') /\ Forall tranche_ok (tranches st') /\
  Forall (Qle 0) (values (pv st')).
Proof.
  intros Hms Hts Hpv. unfold month_body.
  destruct (step_pool root12 cpr cdr recovery (mortgages st) 0 0 0 (gen st))
    as [[[ms' [[ci cp] l]] g']|e] eqn:Ep; cbn [bind]; [|discriminate].
  destruct (step_pool_ok root12 cpr cdr recovery _
              recovery_nonneg recovery_le_1 prepay_nonneg
              _ _ _ _ _ _ _ _ _ Hms Ep) as (Hms' & Hci & Hcp & Hl).
  destruct (run_waterfall_ok ci cp l _ (tranche_ok_nonneg _ Hts) Hci Hcp Hl)
    as (D1 & D2 & F & _ & I).
  destruct (float_pow_int (1 + monthly_disc) month) as [df|e] eqn:Edf; cbn [bind];
    [|discriminate].
  assert (Hdf : 0 <= df).
  { destruct (float_pow_int_value _ _ _ Edf) as [_ [[_ ->]|[_ ->]]];
      [|apply Qle_refl].
    apply Qlt_le_weak, Qpower_0_lt, discount_pos. }
  destruct (discount _ _ _ _ (pv st)) as [pv'|e] eqn:Ed; cbn [bind]; [|discriminate].
  intro H. injection H as <-. cbn [mortgages tranches pv].
  split; [exact Hms'|]. split.
  - apply (paid_down_ok _ _ (paid_down_trans _ _ D1 _ D2) Hts).
  - apply (discount_nonneg _ _ Hdf _ _ _ _ (I Hts) F Hpv Ed).
Qed.

Lemma months_loop_values (todo : nat) :
  forall month st st',
    Forall loan_ok (mortgages st) -> Forall tranche_ok (tranches st) ->
    Forall (Qle 0) (values (pv st)) ->
    months_loop root12 cpr cdr recovery monthly_disc todo month st = Ok st' ->
    Forall (Qle 0) (values (pv st')).
Proof.
  induction todo as [|todo IH]; intros month st st' Hms Hts Hpv; cbn [months_loop].
  - intro H. now injection H as <-.
  - destruct (negb (existsb Mortgage.alive (mortgages st)));
      [intro H; now injection H as <-|].
    destruct (month_body root12 cpr cdr recovery monthly_disc month st)
      as [st1|e] eqn:Eb; cbn [bind]; [|discriminate].
    destruct (month_body_values _ _ _ Hms Hts Hpv Eb) as (Hms1 & Hts1 & Hpv1).
    now apply IH.
Qed.

End PathValues.

(** X18: for tranches with non-negative balances and coupons, a pool of
    well-formed loans, a recovery fraction in [0, 1], a monthly
    prepayment rate that is not negative and an annual discount rate
    above -12, every present value that a path returns is non-negative. *)
Theorem price_single_path_values_nonneg (root12 : Q -> Q)
  (pool_factory0 : rng -> result (list Mortgage.t * rng))
  (defs : list Tranche.t) (months : Z) (cpr cdr recovery disc_rate : Q)
  (g : rng) (ms0 : list Mortgage.t) (g0 : rng) (pv' : dict) (g' : rng) :
  Forall tranche_ok defs -> Forall loan_ok ms0 ->
  0 <= recovery -> recovery <= 1 -> root12 (1 - cpr) <= 1 -> - (12) < disc_rate ->
  pool_factory0 g = Ok (ms0, g0) ->
  price_single_path root12 pool_factory0 defs months cpr cdr recovery disc_rate g
  = Ok (pv', g') ->
  Forall (Qle 0) (values pv').
Proof.
  intros Hts Hms Hr0 Hr1 Hpre Hdisc Hpool. unfold price_single_path.
  rewrite Hpool. cbn [bind].
  destruct (months_loop root12 cpr cdr recovery (disc_rate / 12) (Z.to_nat months) 1
              (path_start defs ms0 g0)) as [st'|e] eqn:E; cbn [bind]; [|discriminate].
  intro H. injection H as <- _.
  assert (Hbase : 0 < 1 + disc_rate / 12).
  { assert (- (1) < disc_rate / 12) by (apply Qlt_shift_div_l; lra). lra. }
  refine (months_loop_values root12 cpr cdr recovery (disc_rate / 12)
            Hr0 Hr1 Hpre Hbase (Z.to_nat months) 1 (path_start defs ms0 g0) st'
            Hms _ _ E).
  - unfold path_start. cbn [tranches]. now rewrite copy_id.
  - unfold path_start. cbn [pv].
    apply (Forall_impl _ (P := fun v => v = 0)); [intros v ->; apply Qle_refl|].
    apply zero_pv_spec.
Qed.

Lemma price_single_path_values_nonneg_witness :
  Forall tranche_ok tranche_defs /\ Forall loan_ok small_pool /\
  0 <= (1 # 2) /\ (1 # 2) <= 1 /\ 1 - 0 <= 1 /\ - (12) < 12 /\
  exists pv' g',
    price_single_path (fun x => x) (fun g => Ok (small_pool, g)) tranche_defs 3
      0 (1 # 2) (1 # 2) 12 draws_075 = Ok (pv', g') /\
    Forall (Qle 0) (values pv').
Proof.
  assert (H1 : Forall tranche_ok tranche_defs)
    by (repeat constructor; vm_compute; discriminate).
  assert (H2 : Forall loan_ok small_pool)
    by (repeat constructor; vm_compute; discriminate).
  assert (H3 : 0 <= (1 # 2)) by (vm_compute; discriminate).
  assert (H4 : (1 # 2) <= 1) by (vm_compute; discriminate).
  assert (H5 : (fun x : Q => x) (1 - 0) <= 1) by (vm_compute; discriminate).
  assert (H6 : - (12) < 12) by reflexivity.
  split; [exact H1|]. split; [exact H2|]. split; [exact H3|]. split; [exact H4|].
  split; [exact H5|]. split; [exact H6|].
  destruct (price_single_path (fun x => x) (fun g => Ok (small_pool, g)) tranche_defs 3
              0 (1 # 2) (1 # 2) 12 draws_075) as [[pv' g']|e] eqn:E.
  - exists pv', g'. split; [reflexivity|].
    exact (price_single_path_values_nonneg (fun x => x) (fun g => Ok (small_pool, g))
             tranche_defs 3 0 (1 # 2) (1 # 2) 12 draws_075 small_pool draws_075
             pv' g' H1 H2 H3 H4 H5 H6 eq_refl E).
  - exfalso. vm_compute in E. discriminate E.
Defined.

(** ** The pool factory *)

Lemma pool_rate_pos (z : Q) : 0 < Qmax (1 # 100) z /\ (1 # 100) <= Qmax (1 # 100) z.
Proof.
  pose proof (Q.le_max_l (1 # 100) z) as H.
  split; [|exact H]. apply Qlt_le_trans with (1 # 100); [reflexivity | exact H].
Qed.

Lemma unit_draws_tail (g : rng) : unit_draws g -> unit_draws (snd (random g)).
Proof. intros H i. apply (H (S i)). Qed.

(** What [todo] iterations of the pool loop do, from any state of the
    generator. *)
Lemma pool_loop_spec (normal_pair : Q -> Q -> Q * Q) (todo : nat) :
  forall pool s,
  exists pool' s',
    pool_loop normal_pair todo pool s = Ok (pool ++ pool', s') /\
    List.length pool' = todo /\
    (forall i, uniforms s' i = uniforms s (i + draws_used todo (has_spare s))%nat) /\
    has_spare s' = spare_after todo (has_spare s) /\
    Forall fresh_loan pool' /\
    (unit_draws (uniforms s) ->
     Forall (fun m => loan_ok m /\ 180000 <= Mortgage.balance m /\
                      Mortgage.balance m <= 320000) pool').
Proof.
  induction todo as [|todo IH]; intros pool s.
  - exists [], s. rewrite app_nil_r. cbn [pool_loop draws_used spare_after].
    split; [reflexivity|]. split; [reflexivity|].
    split; [intro i; f_equal; lia|]. split; [reflexivity|].
    split; [constructor | intros _; constructor].
  - cbn [pool_loop]. unfold uniform. cbn [random].
    set (principal := 180000 + (320000 - 180000) * uniforms s O).
    set (s1 := mkGenerator (fun n => uniforms s (S n)) (gauss_next s)).
    destruct (gauss normal_pair (45 # 1000) (5 # 1000) s1) as [z s2] eqn:Eg.
    destruct (pool_rate_pos z) as [Hpos Hmin].
    destruct (create_payment principal (Qmax (1 # 100) z) 360 Hpos)
      as (p & pay & _ & _ & _ & _ & Ec & _); [reflexivity | reflexivity |].
    rewrite Ec. cbn [bind].
    destruct (IH (pool ++ [Mortgage.mk principal (Qmax (1 # 100) z) 360 360 pay true]) s2)
      as (pool' & s' & El & Hlen & Hdraws & Hspare & Hfresh & Hok).
    exists (Mortgage.mk principal (Qmax (1 # 100) z) 360 360 pay true :: pool'), s'.
    rewrite <- app_assoc in El. cbn [app] in El.
    (* the state after [gauss] *)
    assert (Hs2 : (forall i, uniforms s2 i
                             = uniforms s (i + (if has_spare s then 1 else 3))%nat) /\
                  has_spare s2 = negb (has_spare s)).
    { revert Eg. unfold gauss, has_spare, s1. cbn [gauss_next uniforms random].
      destruct (gauss_next s) as [spare|].
      - intro H. injection H as _ <-. cbn. split; [|reflexivity].
        intro i. f_equal. lia.
      - destruct (normal_pair (uniforms s 1%nat) (uniforms s 2%nat)) as [z' spare'].
        intro H. injection H as _ <-. cbn. split; [|reflexivity].
        intro i. f_equal. lia. }
    destruct Hs2 as [Hu2 Hsp2].
    split; [exact El|]. split; [cbn [List.length]; now rewrite Hlen|].
    split; [|split; [|split]].
    + intro i. rewrite Hdraws, Hu2, Hsp2. cbn [draws_used].
      destruct (has_spare s); cbn [negb]; f_equal; lia.
    + rewrite Hspare, Hsp2. reflexivity.
    + constructor; [|exact Hfresh]. unfold fresh_loan. cbn. now repeat split.
    + intro Hunit. constructor.
      * pose proof (Hunit O) as [H0 H1].
        assert (Hp : 180000 <= principal /\ principal <= 320000)
          by (unfold principal; split; lra).
        split; [|exact Hp].
        apply (create_loan_ok principal (Qmax (1 # 100) z) 360);
          [lra | exact Hpos | reflexivity | exact Ec].
      * apply Hok. intro i. rewrite Hu2. apply Hunit.
Qed.

(** X19: every call of the pool factory (made with no spare deviate
    pending, as after seeding) returns 400 loans without raising; each is
    alive with term and remaining months 360 and a rate of at least 0.01;
    the call makes exactly 800 uniform draws and leaves no spare deviate
    behind.  When the draws lie in [0, 1] each loan is well-formed with a
    balance between 180000 and 320000. *)
Theorem pool_factory_builds_pool (normal_pair : Q -> Q -> Q * Q) (g : rng) :
  exists pool s',
    pool_loop normal_pair 400 [] (mkGenerator g None) = Ok (pool, s') /\
    pool_factory normal_pair g = Ok (pool, uniforms s') /\
    gauss_next s' = None /\
    (forall i, uniforms s' i = advance 800 g i) /\
    List.length pool = 400%nat /\
    Forall fresh_loan pool /\
    (unit_draws g ->
     Forall (fun m => loan_ok m /\ 180000 <= Mortgage.balance m /\
                      Mortgage.balance m <= 320000) pool).
Proof.
  destruct (pool_loop_spec normal_pair 400 [] (mkGenerator g None))
    as (pool & s' & El & Hlen & Hdraws & Hspare & Hfresh & Hok).
  cbn [app] in El. exists pool, s'.
  split; [exact El|]. split; [unfold pool_factory; now rewrite El|].
  split.
  - unfold has_spare in Hspare. cbn [gauss_next] in Hspare.
    destruct (gauss_next s'); [|reflexivity].
    vm_compute in Hspare. discriminate Hspare.
  - split; [intro i; rewrite Hdraws; reflexivity|].
    split; [exact Hlen|]. split; [exact Hfresh | exact Hok].
Qed.

(** ** The driver *)

Lemma add_pv_ok (todo : list string) :
  forall aggregate pv0,
    incl todo (keys aggregate) -> incl todo (keys pv0) ->
    exists aggregate',
      add_pv todo aggregate pv0 = Ok aggregate' /\ keys aggregate' = keys aggregate.
Proof.
  induction todo as [|key todo IH]; intros aggregate pv0 Ha Hp; cbn [add_pv].
  - exists aggregate. now split.
  - assert (Hka : In key (keys aggregate)) by (apply Ha; now left).
    destruct (proj2 (dict_get_in _ _) Hka) as [a Ea].
    destruct (proj2 (dict_get_in pv0 key) (Hp key (or_introl eq_refl))) as [x Ex].
    rewrite Ea, Ex.
    destruct (IH (dict_set aggregate key (a + x)) pv0) as (aggregate' & E & K).
    { rewrite keys_dict_set by exact Hka. intros k Hk. apply Ha. now right. }
    { intros k Hk. apply Hp. now right. }
    exists aggregate'. split; [exact E|]. rewrite K. now apply keys_dict_set.
Qed.

Lemma add_pv_nonneg (todo : list string) :
  forall aggregate pv0 aggregate',
    Forall (Qle 0) (values aggregate) -> Forall (Qle 0) (values pv0) ->
    add_pv todo aggregate pv0 = Ok aggregate' ->
    Forall (Qle 0) (values aggregate').
Proof.
  induction todo as [|key todo IH]; intros aggregate pv0 aggregate' Ha Hp;
    cbn [add_pv].
  - intro H. now injection H as <-.
  - destruct (dict_get aggregate key) as [a|] eqn:Ea; [|discriminate].
    destruct (dict_get pv0 key) as [x|] eqn:Ex; [|discriminate].
    apply IH; [|exact Hp].
    apply values_dict_set; [exact Ha|].
    pose proof (values_dict_get _ _ _ _ Ha Ea) as H1.
    pose proof (values_dict_get _ _ _ _ Hp Ex) as H2. cbn beta in *. lra.
Qed.

Lemma inject_Z_zero (runs : Z) : Qeq_bool (inject_Z runs) 0 = true <-> runs = 0%Z.
Proof.
  rewrite Qeq_bool_iff. unfold Qeq, inject_Z. cbn. split; intro H; lia.
Qed.

Lemma average_ok (runs : Z) (todo : list string) :
  runs <> 0%Z ->
  forall aggregate,
    incl todo (keys aggregate) ->
    exists aggregate',
      average runs todo aggregate = Ok aggregate' /\ keys aggregate' = keys aggregate.
Proof.
  intro Hruns.
  assert (Hz : Qeq_bool (inject_Z runs) 0 = false).
  { destruct (Qeq_bool (inject_Z runs) 0) eqn:E; [|reflexivity].
    apply inject_Z_zero in E. contradiction. }
  induction todo as [|key todo IH]; intros aggregate Ha; cbn [average].
  - exists aggregate. now split.
  - assert (Hka : In key (keys aggregate)) by (apply Ha; now left).
    destruct (proj2 (dict_get_in _ _) Hka) as [a Ea]. rewrite Ea.
    unfold float_div. rewrite Hz. cbn [bind].
    destruct (IH (dict_set aggregate key (a / inject_Z runs))) as (aggregate' & E & K).
    { rewrite keys_dict_set by exact Hka. intros k Hk. apply Ha. now right. }
    exists aggregate'. split; [exact E|]. rewrite K. now apply keys_dict_set.
Qed.

Lemma average_nonneg (runs : Z) (todo : list string) :
  (0 < runs)%Z ->
  forall aggregate aggregate',
    Forall (Qle 0) (values aggregate) ->
    average runs todo aggregate = Ok aggregate' ->
    Forall (Qle 0) (values aggregate').
Proof.
  intro Hruns.
  assert (Hpos : 0 < inject_Z runs).
  { unfold Qlt, inject_Z. cbn. lia. }
  induction todo as [|key todo IH]; intros aggregate aggregate' Ha; cbn [average].
  - intro H. now injection H as <-.
  - destruct (dict_get aggregate key) as [a|] eqn:Ea; [|discriminate].
    unfold float_div. destruct (Qeq_bool (inject_Z runs) 0); [discriminate|].
    cbn [bind]. apply IH. apply values_dict_set; [exact Ha|].
    pose proof (values_dict_get _ _ _ _ Ha Ea) as H1. cbn beta in H1.
    apply Qle_shift_div_l; lra.
Qed.

Lemma driver_keys : keys (zero_pv tranche_defs) = ["Senior"; "Mezz"; "Equity"]%string.
Proof. reflexivity. Qed.

(** A path of the driver does not raise and returns a value per tranche. *)
Lemma driver_path_ok (root12 : Q -> Q) (normal_pair : Q -> Q -> Q * Q) (g : rng) :
  exists pv0 g',
    price_single_path root12 (pool_factory normal_pair) tranche_defs 360
      (8 # 100) (2 # 100) (60 # 100) (5 # 100) g = Ok (pv0, g') /\
    keys pv0 = keys (zero_pv tranche_defs).
Proof.
  unfold price_single_path, pool_factory.
  destruct (pool_loop_spec normal_pair 400 [] (mkGenerator g None))
    as (pool & s' & El & _).
  cbn [app] in El. rewrite El. cbn [bind].
  assert (Hk : incl (map Tranche.name (tranches (path_start tranche_defs pool (uniforms s'))))
                 (keys (pv (path_start tranche_defs pool (uniforms s'))))).
  { unfold path_start. cbn [tranches pv]. apply zero_pv_spec. }
  destruct (months_loop_total root12 (8 # 100) (2 # 100) (60 # 100) ((5 # 100) / 12) 360
              ltac:(vm_compute; discriminate) ltac:(vm_compute; discriminate)
              ltac:(vm_compute; discriminate) ltac:(vm_compute; reflexivity)
              ltac:(vm_compute; reflexivity) (Z.to_nat 360) 1 _
              ltac:(lia) ltac:(lia) Hk) as (st' & E & K).
  rewrite E. cbn [bind]. exists (pv st'), (gen st'). split; [reflexivity|].
  rewrite K. reflexivity.
Qed.

Lemma runs_loop_ok (root12 : Q -> Q) (normal_pair : Q -> Q -> Q * Q) (todo : nat) :
  forall aggregate g,
    keys aggregate = keys (zero_pv tranche_defs) ->
    exists aggregate' g',
      runs_loop root12 normal_pair todo aggregate g = Ok (aggregate', g') /\
      keys aggregate' = keys (zero_pv tranche_defs).
Proof.
  induction todo as [|todo IH]; intros aggregate g Hk; cbn [runs_loop].
  - exists aggregate, g. now split.
  - destruct (driver_path_ok root12 normal_pair g) as (pv0 & g1 & E & Kp).
    rewrite E. cbn [bind].
    destruct (add_pv_ok (map fst aggregate) aggregate pv0) as (aggregate1 & Ea & Ka).
    { apply incl_refl. }
    { fold (keys aggregate). rewrite Hk, Kp. apply incl_refl. }
    rewrite Ea. cbn [bind]. apply IH. now rewrite Ka.
Qed.

(** X20: called with no runs the driver divides by zero: [monte_carlo(0)]
    raises [ZeroDivisionError] at the first average; with a negative run
    count no path is run and no number drawn, and the result is 0 for
    each of Senior, Mezz and Equity. *)
Theorem monte_carlo_no_runs (root12 : Q -> Q) (normal_pair : Q -> Q -> Q * Q)
  (runs : Z) (g : rng) :
  (runs <= 0)%Z ->
  (runs = 0%Z -> monte_carlo root12 normal_pair runs g = Raise ZeroDivisionError) /\
  (runs <> 0%Z ->
   exists averaged,
     monte_carlo root12 normal_pair runs g = Ok (averaged, g) /\
     keys averaged = ["Senior"; "Mezz"; "Equity"]%string /\
     Forall (fun v => v == 0) (values averaged)).
Proof.
  intro Hruns. unfold monte_carlo.
  replace (Z.to_nat runs) with O by lia. cbn [runs_loop bind].
  change (zero_pv tranche_defs)
    with [("Senior"%string, 0); ("Mezz"%string, 0); ("Equity"%string, 0)].
  cbn [map fst average dict_get String.eqb Ascii.eqb Bool.eqb]. split.
  - intros ->. reflexivity.
  - intro Hnz. unfold float_div.
    assert (Hz : Qeq_bool (inject_Z runs) 0 = false).
    { destruct (Qeq_bool (inject_Z runs) 0) eqn:E; [|reflexivity].
      apply inject_Z_zero in E. contradiction. }
    rewrite Hz. cbn [bind dict_set dict_get String.eqb Ascii.eqb Bool.eqb].
    eexists. split; [reflexivity|]. split; [reflexivity|].
    cbn [values map snd]. repeat constructor; unfold Qdiv; ring.
Qed.

Lemma monte_carlo_no_runs_witness :
  (0 <= 0)%Z /\
  monte_carlo (fun x => x) (fun u1 u2 => (u1, u2)) 0 draws_075 = Raise ZeroDivisionError.
Proof.
  assert (H : (0 <= 0)%Z) by lia.
  split; [exact H|].
  exact (proj1 (monte_carlo_no_runs (fun x => x) (fun u1 u2 => (u1, u2)) 0 draws_075 H)
           eq_refl).
Defined.

(** X21: with at least one run the driver never raises, whatever the
    draws: every path builds its pool, runs its months and discounts
    without an exception, and the result holds one average for each of
    Senior, Mezz and Equity, in that order. *)
Theorem monte_carlo_never_raises (root12 : Q -> Q) (normal_pair : Q -> Q -> Q * Q)
  (runs : Z) (g : rng) :
  (0 < runs)%Z ->
  exists averaged g',
    monte_carlo root12 normal_pair runs g = Ok (averaged, g') /\
    keys averaged = ["Senior"; "Mezz"; "Equity"]%string.
Proof.
  intro Hruns. unfold monte_carlo.
  destruct (runs_loop_ok root12 normal_pair (Z.to_nat runs) (zero_pv tranche_defs) g
              eq_refl) as (aggregate & g' & E & K).
  rewrite E. cbn [bind].
  destruct (average_ok runs (map fst aggregate) ltac:(lia) aggregate (incl_refl _))
    as (averaged & Ea & Ka).
  rewrite Ea. cbn [bind]. exists averaged, g'. split; [reflexivity|].
  now rewrite Ka, K.
Qed.

Lemma monte_carlo_never_raises_witness :
  (0 < 30)%Z /\
  exists averaged g',
    monte_carlo (fun x => x) (fun u1 u2 => (u1, u2)) 30 draws_075 = Ok (averaged, g') /\
    keys averaged = ["Senior"; "Mezz"; "Equity"]%string.
Proof.
  assert (H : (0 < 30)%Z) by lia.
  split; [exact H|].
  exact (monte_carlo_never_raises (fun x => x) (fun u1 u2 => (u1, u2)) 30 draws_075 H).
Defined.

(** ** Draws stay draws *)

Lemma step_unit_draws (root12 : Q -> Q) (m : Mortgage.t) (cpr cdr recovery : Q)
  (g : rng) (cf : cashflow) (m' : Mortgage.t) (g' : rng) :
  unit_draws g ->
  Mortgage.step root12 m cpr cdr recovery g = Ok (cf, m', g') -> unit_draws g'.
Proof.
  intros Hg Hs. rewrite (step_generator _ _ _ _ _ _ _ _ _ Hs).
  destruct (is_inert m); [exact Hg | now apply unit_draws_tail].
Qed.

Lemma step_pool_unit_draws (root12 : Q -> Q) (cpr cdr recovery : Q)
  (ms : list Mortgage.t) :
  forall ci cp l g ms' totals g',
    unit_draws g ->
    step_pool root12 cpr cdr recovery ms ci cp l g = Ok (ms', totals, g') ->
    unit_draws g'.
Proof.
  induction ms as [|mt rest IH]; intros ci cp l g ms' totals g' Hg; cbn [step_pool].
  - intro H. now injection H as _ _ <-.
  - destruct (Mortgage.step root12 mt cpr cdr recovery g) as [[[cf mt'] g1]|e] eqn:Es;
      cbn [bind]; [|discriminate].
    destruct (step_pool root12 cpr cdr recovery rest _ _ _ g1)
      as [[[rest' tot1] g2]|e] eqn:Ep; cbn [bind]; [|discriminate].
    intro H. injection H as _ _ <-.
    apply (IH _ _ _ _ _ _ _ (step_unit_draws _ _ _ _ _ _ _ _ _ Hg Es) Ep).
Qed.

Lemma months_loop_unit_draws (root12 : Q -> Q) (cpr cdr recovery monthly_disc : Q)
  (todo : nat) :
  forall month st st',
    unit_draws (gen st) ->
    months_loop root12 cpr cdr recovery monthly_disc todo month st = Ok st' ->
    unit_draws (gen st').
Proof.
  induction todo as [|todo IH]; intros month st st' Hg; cbn [months_loop].
  - intro H. now injection H as <-.
  - destruct (negb (existsb Mortgage.alive (mortgages st)));
      [intro H; now injection H as <-|].
    unfold month_body.
    destruct (step_pool root12 cpr cdr recovery (mortgages st) 0 0 0 (gen st))
      as [[[ms' [[ci cp] l]] g']|e] eqn:Ep; cbn [bind]; [|discriminate].
    destruct (float_pow_int (1 + monthly_disc) month) as [df|e]; cbn [bind];
      [|discriminate].
    destruct (discount df _ _ _ (pv st)) as [pv'|e]; cbn [bind]; [|discriminate].
    apply IH. cbn [gen].
    apply (step_pool_unit_draws _ _ _ _ _ _ _ _ _ _ _ _ Hg Ep).
Qed.

(** A path of the driver on draws in [0, 1]: non-negative present values,
    and draws in [0, 1] left for the next path. *)
Lemma driver_path_values (root12 : Q -> Q) (normal_pair : Q -> Q -> Q * Q) (g : rng)
  (pv0 : dict) (g' : rng) :
  root12 (1 - (8 # 100)) <= 1 -> unit_draws g ->
  price_single_path root12 (pool_factory normal_pair) tranche_defs 360
    (8 # 100) (2 # 100) (60 # 100) (5 # 100) g = Ok (pv0, g') ->
  Forall (Qle 0) (values pv0) /\ unit_draws g'.
Proof.
  intros Hroot Hg. unfold price_single_path, pool_factory.
  destruct (pool_loop_spec normal_pair 400 [] (mkGenerator g None))
    as (pool & s' & El & _ & Hdraws & _ & _ & Hok).
  cbn [app uniforms] in *. rewrite El. cbn [bind].
  destruct (months_loop root12 (8 # 100) (2 # 100) (60 # 100) ((5 # 100) / 12)
              (Z.to_nat 360) 1 (path_start tranche_defs pool (uniforms s')))
    as [st'|e] eqn:E; cbn [bind]; [|discriminate].
  intro H. injection H as <- <-.
  assert (Hpool : Forall loan_ok pool).
  { apply (Forall_impl _ (P := fun m => loan_ok m /\ 180000 <= Mortgage.balance m /\
                                       Mortgage.balance m <= 320000));
      [now intros m [H _] | now apply Hok]. }
  assert (Hu : unit_draws (uniforms s')).
  { intro i. rewrite Hdraws. exact (Hg _). }
  split.
  - refine (months_loop_values root12 (8 # 100) (2 # 100) (60 # 100) ((5 # 100) / 12)
              ltac:(vm_compute; discriminate) ltac:(vm_compute; discriminate) Hroot
              ltac:(reflexivity) (Z.to_nat 360) 1
              (path_start tranche_defs pool (uniforms s')) st' Hpool _ _ E).
    + unfold path_start. cbn [tranches]. rewrite copy_id.
      repeat constructor; vm_compute; discriminate.
    + unfold path_start. cbn [pv].
      apply (Forall_impl _ (P := fun v => v = 0)); [intros v ->; apply Qle_refl|].
      apply zero_pv_spec.
  - apply (months_loop_unit_draws _ _ _ _ _ _ _
             (path_start tranche_defs pool (uniforms s')) _ Hu E).
Qed.

Lemma runs_loop_values (root12 : Q -> Q) (normal_pair : Q -> Q -> Q * Q) (todo : nat) :
  root12 (1 - (8 # 100)) <= 1 ->
  forall aggregate g aggregate' g',
    unit_draws g -> Forall (Qle 0) (values aggregate) ->
    runs_loop root12 normal_pair todo aggregate g = Ok (aggregate', g') ->
    Forall (Qle 0) (values aggregate').
Proof.
  intro Hroot.
  induction todo as [|todo IH]; intros aggregate g aggregate' g' Hg Ha;
    cbn [runs_loop].
  - intro H. now injection H as <- _.
  - destruct (price_single_path root12 (pool_factory normal_pair) tranche_defs 360
                (8 # 100) (2 # 100) (60 # 100) (5 # 100) g) as [[pv0 g1]|e] eqn:E;
      cbn [bind]; [|discriminate].
    destruct (driver_path_values _ _ _ _ _ Hroot Hg E) as [Hv Hg1].
    destruct (add_pv (map fst aggregate) aggregate pv0) as [aggregate1|e] eqn:Ea;
      cbn [bind]; [|discriminate].
    apply (IH _ _ _ _ Hg1 (add_pv_nonneg _ _ _ _ Ha Hv Ea)).
Qed.

(** X22: on draws in [0, 1] and with a monthly prepayment rate that is
    not negative, the averages that the driver returns for a positive
    number of runs are all non-negative. *)
Theorem monte_carlo_averages_nonneg (root12 : Q -> Q) (normal_pair : Q -> Q -> Q * Q)
  (runs : Z) (g : rng) :
  (0 < runs)%Z -> unit_draws g -> root12 (1 - (8 # 100)) <= 1 ->
  exists averaged g',
    monte_carlo root12 normal_pair runs g = Ok (averaged, g') /\
    Forall (Qle 0) (values averaged).
Proof.
  intros Hruns Hg Hroot. unfold monte_carlo.
  destruct (runs_loop_ok root12 normal_pair (Z.to_nat runs) (zero_pv tranche_defs) g
              eq_refl) as (aggregate & g' & E & K).
  rewrite E. cbn [bind].
  destruct (average_ok runs (map fst aggregate) ltac:(lia) aggregate (incl_refl _))
    as (averaged & Ea & Ka).
  rewrite Ea. cbn [bind]. exists averaged, g'. split; [reflexivity|].
  apply (average_nonneg runs (map fst aggregate) Hruns aggregate averaged);
    [|exact Ea].
  apply (runs_loop_values root12 normal_pair (Z.to_nat runs) Hroot
           (zero_pv tranche_defs) g aggregate g' Hg); [|exact E].
  repeat constructor; vm_compute; discriminate.
Qed.

Lemma monte_carlo_averages_nonneg_witness :
  (0 < 30)%Z /\ unit_draws draws_075 /\ 1 - (8 # 100) <= 1 /\
  exists averaged g',
    monte_carlo (fun x => x) (fun u1 u2 => (u1, u2)) 30 draws_075 = Ok (averaged, g') /\
    Forall (Qle 0) (values averaged).
Proof.
  assert (H1 : (0 < 30)%Z) by lia.
  assert (H2 : unit_draws draws_075)
    by (intro i; split; vm_compute; discriminate).
  assert (H3 : (fun x : Q => x) (1 - (8 # 100)) <= 1) by (vm_compute; discriminate).
  split; [exact H1|]. split; [exact H2|]. split; [exact H3|].
  exact (monte_carlo_averages_nonneg (fun x => x) (fun u1 u2 => (u1, u2)) 30
           draws_075 H1 H2 H3).
Defined.

(** ** More on loans *)

(** X23: a loan that [create] returns from a positive principal, annual
    rate and term has the principal as balance, the rate and the term it
    was given, the whole term remaining, and is alive; its level payment
    is at least the first month's interest, principal * rate / 12, so no
    scheduled payment is short of the interest due, the balance never
    being above the principal. *)
Theorem create_payment_covers_interest (principal r : Q) (n : Z) (m : Mortgage.t) :
  0 < principal -> 0 < r -> (0 < n)%Z ->
  Mortgage.create principal r n = Ok m ->
  Mortgage.balance m = principal /\ Mortgage.rate m = r /\
  Mortgage.term m = n /\ Mortgage.remaining m = n /\ Mortgage.alive m = true /\
  principal * (r / 12) <= Mortgage.payment m /\
  loan_ok m.
Proof.
  intros HP Hr Hn Hc.
  destruct (create_payment_covers principal r n m) as (Hm & Hpay);
    [lra | exact Hr | exact Hn | exact Hc |].
  pose proof (create_loan_ok _ _ _ _ HP Hr Hn Hc) as Hok.
  split; [rewrite Hm; reflexivity|]. split; [rewrite Hm; reflexivity|].
  split; [rewrite Hm; reflexivity|]. split; [rewrite Hm; reflexivity|].
  split; [rewrite Hm; reflexivity|]. split; [exact Hpay | exact Hok].
Qed.

Lemma create_payment_covers_interest_witness :
  0 < 1000 /\ 0 < 12 /\ (0 < 2)%Z /\
  exists m,
    Mortgage.create 1000 12 2 = Ok m /\
    1000 * (12 / 12) <= Mortgage.payment m /\ loan_ok m.
Proof.
  assert (H1 : 0 < 1000) by reflexivity.
  assert (H2 : 0 < 12) by reflexivity.
  assert (H3 : (0 < 2)%Z) by reflexivity.
  split; [exact H1|]. split; [exact H2|]. split; [exact H3|].
  destruct (Mortgage.create 1000 12 2) as [m|e] eqn:E.
  - exists m. split; [reflexivity|].
    destruct (create_payment_covers_interest 1000 12 2 m H1 H2 H3 E)
      as (_ & _ & _ & _ & _ & Hpay & Hok).
    split; [exact Hpay | exact Hok].
  - exfalso. vm_compute in E. discriminate E.
Defined.

(** X25: a well-formed loan stepped for any number of months, with a
    recovery fraction in [0, 1] and a monthly prepayment rate that is not
    negative, stays well-formed, never has more balance than it started
    with, and returns only non-negative interest, principal and loss. *)
Theorem step_months_keeps_loan_ok (root12 : Q -> Q) (cpr cdr recovery : Q) (n : nat) :
  0 <= recovery -> recovery <= 1 -> root12 (1 - cpr) <= 1 ->
  forall (m : Mortgage.t) (g : rng) (cfs : list cashflow) (m' : Mortgage.t) (g' : rng),
    loan_ok m ->
    step_months root12 n m cpr cdr recovery g = Ok (cfs, m', g') ->
    loan_ok m' /\ Mortgage.balance m' <= Mortgage.balance m /\
    Forall (fun cf => 0 <= cf_interest cf /\ 0 <= cf_principal cf /\ 0 <= cf_loss cf)
      cfs.
Proof.
  intros Hr0 Hr1 Hroot.
  induction n as [|n IH]; intros m g cfs m' g' Hm; cbn [step_months].
  - intro H. injection H as <- <- _. split; [exact Hm|].
    split; [apply Qle_refl | constructor].
  - destruct (Mortgage.step root12 m cpr cdr recovery g) as [[[cf m1] g1]|e] eqn:E1;
      cbn [bind]; [|discriminate].
    destruct (step_months root12 n m1 cpr cdr recovery g1) as [[[cfs1 m2] g2]|e] eqn:E2;
      cbn [bind]; [|discriminate].
    intro H. injection H as <- <- _.
    destruct (step_ok _ _ _ _ _ _ _ _ _ Hm Hr0 Hr1 Hroot E1) as (Hm1 & Hi & Hp & Hl).
    destruct (IH _ _ _ _ _ Hm1 E2) as (Hm2 & Hle & Hall).
    pose proof (step_balance _ _ _ _ _ _ _ _ _ E1) as Hbal.
    split; [exact Hm2|]. split; [lra|]. constructor; [now repeat split | exact Hall].
Qed.

Lemma step_months_keeps_loan_ok_witness :
  0 <= (1 # 2) /\ (1 # 2) <= 1 /\ 1 - 0 <= 1 /\ loan_ok live_loan /\
  exists cfs m' g',
    step_months (fun x => x) 3 live_loan 0 (1 # 2) (1 # 2) draws_075 = Ok (cfs, m', g') /\
    loan_ok m' /\ Mortgage.balance m' <= Mortgage.balance live_loan.
Proof.
  assert (H1 : 0 <= (1 # 2)) by (vm_compute; discriminate).
  assert (H2 : (1 # 2) <= 1) by (vm_compute; discriminate).
  assert (H3 : (fun x : Q => x) (1 - 0) <= 1) by (vm_compute; discriminate).
  assert (H4 : loan_ok live_loan) by (repeat split; vm_compute; discriminate).
  split; [exact H1|]. split; [exact H2|]. split; [exact H3|]. split; [exact H4|].
  destruct (step_months (fun x => x) 3 live_loan 0 (1 # 2) (1 # 2) draws_075)
    as [[[cfs m'] g']|e] eqn:E.
  - exists cfs, m', g'. split; [reflexivity|].
    destruct (step_months_keeps_loan_ok (fun x => x) 0 (1 # 2) (1 # 2) 3 H1 H2 H3
                live_loan draws_075 cfs m' g' H4 E) as (Hok & Hle & _).
    split; [exact Hok | exact Hle].
  - exfalso. vm_compute in E. discriminate E.
Defined.

(** X26: along a path started from tranches with non-negative balances
    and a pool of well-formed loans (recovery in [0, 1], monthly
    prepayment rate not negative), after any number of months every
    tranche is the tranche it was, with a balance that is non-negative
    and at most its original balance, and every loan is still
    well-formed. *)
Theorem tranche_balances_stay_within (root12 : Q -> Q)
  (cpr cdr recovery disc_rate : Q) (defs : list Tranche.t)
  (ms0 : list Mortgage.t) (g0 : rng) (j : nat) (st : path_state) :
  Forall nonneg_balance defs -> Forall loan_ok ms0 ->
  0 <= recovery -> recovery <= 1 -> root12 (1 - cpr) <= 1 ->
  months_loop root12 cpr cdr recovery (disc_rate / 12) j 1 (path_start defs ms0 g0)
  = Ok st ->
  Forall2 paid_down defs (tranches st) /\ Forall loan_ok (mortgages st).
Proof.
  intros Hts Hms Hr0 Hr1 Hpre Hloop.
  destruct (months_loop_ok root12 cpr cdr recovery (disc_rate / 12) Hr0 Hr1 Hpre
              j 1 (path_start defs ms0 g0) st Hms) as (Hms1 & D);
    [| exact Hloop |].
  { unfold path_start. cbn [tranches]. now rewrite copy_id. }
  unfold path_start in D. cbn [tranches] in D. rewrite copy_id in D.
  split; [exact D | exact Hms1].
Qed.

Lemma tranche_balances_stay_within_witness :
  Forall nonneg_balance tranche_defs /\ Forall loan_ok small_pool /\
  0 <= (1 # 2) /\ (1 # 2) <= 1 /\ 1 - 0 <= 1 /\
  exists st,
    months_loop (fun x => x) 0 (1 # 2) (1 # 2) (12 / 12) 2 1
      (path_start tranche_defs small_pool draws_075) = Ok st /\
    Forall2 paid_down tranche_defs (tranches st).
Proof.
  assert (H1 : Forall nonneg_balance tranche_defs)
    by (repeat constructor; vm_compute; discriminate).
  assert (H2 : Forall loan_ok small_pool)
    by (repeat constructor; vm_compute; discriminate).
  assert (H3 : 0 <= (1 # 2)) by (vm_compute; discriminate).
  assert (H4 : (1 # 2) <= 1) by (vm_compute; discriminate).
  assert (H5 : (fun x : Q => x) (1 - 0) <= 1) by (vm_compute; discriminate).
  split; [exact H1|]. split; [exact H2|]. split; [exact H3|]. split; [exact H4|].
  split; [exact H5|].
  destruct (months_loop (fun x => x) 0 (1 # 2) (1 # 2) (12 / 12) 2 1
              (path_start tranche_defs small_pool draws_075)) as [st|e] eqn:E.
  - exists st. split; [reflexivity|].
    exact (proj1 (tranche_balances_stay_within (fun x => x) 0 (1 # 2) (1 # 2) 12
                    tranche_defs small_pool draws_075 2 st H1 H2 H3 H4 H5 E)).
  - exfalso. vm_compute in E. discriminate E.
Defined.
